(** * dex-aggregator-mvp: the off-chain split solver and the on-chain router

    Two parts of the repository are embedded here.

    - [DpSolver]: [findBestDistribution] of the solver (dpSolver.ts), the
      function the aggregation driver imports, together with the documented
      example implementation that takes the number of parts as an argument
      ([Reference.findBestDistribution]).
    - [Router]: the [UniswapV3DexRouter] contract: [aggregateSwap],
      [_swapByUniswapV3], [uniswapV3SwapCallback] and [computePoolAddress].

    JavaScript numbers are modelled by their integer values ([Z]) extended
    with the three non-integer values the solver can produce: [-Infinity],
    [NaN] and [undefined] (the latter from reading past the end of an array).
    Solidity's [uint256]/[int256] are [Z] with wrap-around written out. *)

From Stdlib Require Import ZArith Lia String.
From stdpp Require Import base option list gmap.

Local Open Scope Z_scope.

(** ** JavaScript values met by the solver *)

Inductive jsval : Type :=
| Num (z : Z)
| NegInfinity
| NaN
| Undefined.

#[global] Instance jsval_eq_dec : EqDecision jsval.
Proof. solve_decision. Defined.

(** [a + b] on numbers; [undefined] converts to [NaN]. *)
Definition js_add (a b : jsval) : jsval :=
  match a, b with
  | Num x, Num y => Num (x + y)
  | NegInfinity, (Num _ | NegInfinity) => NegInfinity
  | Num _, NegInfinity => NegInfinity
  | _, _ => NaN
  end.

(** [a > b]: false as soon as one side is [NaN] or [undefined]. *)
Definition js_gt (a b : jsval) : bool :=
  match a, b with
  | Num x, Num y => bool_decide (y < x)
  | Num _, NegInfinity => true
  | _, _ => false
  end.

(** [m[p][k]] on an array of arrays; a read past the end is [undefined]. *)
Definition read2 {A} (m : list (list A)) (p k : nat) : option A :=
  m !! p ≫= (.!! k).

(** [m[p][k] = v]; every write of the solver is inside the allocated table. *)
Definition write2 {A} (p k : nat) (v : A) (m : list (list A)) : list (list A) :=
  alter (<[k := v]>) p m.

(** Sum of a list of integers. *)
Definition sumZ (l : list Z) : Z := foldr Z.add 0 l.

(** ** The split solver (dpSolver.ts) *)

Module DpSolver.

(** The two tables the solver fills. *)
Record tables : Type := Tables {
  answers : list (list jsval);
  parents : list (list nat)
}.

(** What a call of the solver ends with. *)
Inductive outcome (A : Type) : Type :=
| Return (a : A)
| Throw (msg : string).
Arguments Return {A} a.
Arguments Throw {A} msg.

Record result : Type := Result {
  totalAmountOut : jsval;
  distribution : list Z
}.

(** [amounts[p][k]] as a JavaScript value; the loops keep the row index
    [p] below [pools], the column index may run past the row. *)
Definition amt (amounts : list (list Z)) (p k : nat) : jsval :=
  from_option Num Undefined (read2 amounts p k).

(** [answers[p][s]]. *)
Definition ans (t : list (list jsval)) (p s : nat) : jsval :=
  default Undefined (read2 t p s).

(** [parents[p][s]]; every cell read by the solver was written before. *)
Definition par (t : list (list nat)) (p s : nat) : nat :=
  default 0%nat (read2 t p s).

(** [answers[p] = new Array(parts + 1).fill(0)], same for [parents]. *)
Definition allocate (pools parts : nat) : tables :=
  Tables (replicate pools (replicate (parts + 1) (Num 0)))
         (replicate pools (replicate (parts + 1) 0%nat)).

(** Body of the first loop over [s]: the first row is copied from
    [amounts[0]], the other rows are set to [-Infinity]. *)
Definition initColumn (amounts : list (list Z)) (pools : nat) (t : tables) (s : nat) : tables :=
  let a := write2 0 s (amt amounts 0 s) (answers t) in
  let a := fold_left (fun a p => write2 p s NegInfinity a) (seq 1 (pools - 1)) a in
  Tables a (write2 0 s 0%nat (parents t)).

(** Body of the loop over [curPart] at cell [(p, s)]. *)
Definition tryPart (amounts : list (list Z)) (p s : nat) (t : tables) (curPart : nat) : tables :=
  let preParts := (s - curPart)%nat in
  if js_gt (js_add (amt amounts p curPart) (amt amounts (p - 1) preParts))
           (amt amounts (p - 1) s)
  then Tables (write2 p s (js_add (amt amounts p curPart) (amt amounts (p - 1) preParts)) (answers t))
              (write2 p s preParts (parents t))
  else t.

(** Body of the loop over [s] for pool [p >= 1]. *)
Definition fillCell (amounts : list (list Z)) (p : nat) (t : tables) (s : nat) : tables :=
  let t := Tables (write2 p s (ans (answers t) (p - 1) s) (answers t))
                  (write2 p s s (parents t)) in
  fold_left (tryPart amounts p s) (seq 1 s) t.

Definition fillRow (amounts : list (list Z)) (parts : nat) (t : tables) (p : nat) : tables :=
  fold_left (fillCell amounts p) (seq 0 (parts + 1)) t.

(** The walk back from the last pool: [n] is [p + 1], so that [n = 0]
    is the exit on [p >= 0] failing. *)
Fixpoint reconstruct (parents : list (list nat)) (n partsLeft : nat)
         (distribution : list Z) : list Z :=
  match n with
  | O => distribution
  | S p =>
      if bool_decide (0 < partsLeft)%nat then
        let rest := par parents p partsLeft in
        reconstruct parents p rest
                    (<[p := Z.of_nat partsLeft - Z.of_nat rest]> distribution)
      else distribution
  end.

(** The tables after the two filling phases. *)
Definition dpTables (amounts : list (list Z)) (pools parts : nat) : tables :=
  let t := allocate pools parts in
  let t := fold_left (initColumn amounts pools) (seq 0 (parts + 1)) t in
  fold_left (fillRow amounts parts) (seq 1 (pools - 1)) t.

Definition findBestDistribution (amounts : list (list Z)) : outcome result :=
  match amounts !! 0%nat with
  | None => Throw "no pools passed in"
  | Some row0 =>
      let pools := length amounts in
      let parts := length row0 in
      let t := dpTables amounts pools parts in
      let distribution := replicate pools 0 in
      let answers := <[0%nat := Num <$> row0]> (answers t) in
      let distribution := reconstruct (parents t) pools parts distribution in
      Return (Result (ans answers (pools - 1) parts) distribution)
  end.

(** The matrix of the documented example. *)
Definition exampleAmounts : list (list Z) :=
  [[0; 100; 200; 300]; [0; 150; 250; 350]; [0; 120; 220; 320]].

(** A two-venue matrix on which three splits of three parts tie. *)
Definition tieAmounts : list (list Z) :=
  [[0; 100; 200; 300]; [0; 150; 250; 350]].

(** *** The documented example implementation

    The repository's documentation carries a second implementation, which
    takes the number of parts [s] as an argument, combines the previous
    row of [answer] (not of [amounts]) and compares each candidate with
    the running best. *)
Module Reference.

Definition VERY_NEGATIVE_VALUE : Z := - 10 ^ 72.

Definition allocate (n s : nat) : tables :=
  Tables (replicate n (replicate (s + 1) Undefined))
         (replicate n (replicate (s + 1) 0%nat)).

Definition initColumn (amounts : list (list Z)) (n : nat) (t : tables) (j : nat) : tables :=
  let a := write2 0 j (amt amounts 0 j) (answers t) in
  let a := fold_left (fun a i => write2 i j (Num VERY_NEGATIVE_VALUE) a) (seq 1 (n - 1)) a in
  Tables a (write2 0 j 0%nat (parents t)).

Definition tryPart (amounts : list (list Z)) (i j : nat) (t : tables) (k : nat) : tables :=
  let candidate := js_add (ans (answers t) (i - 1) (j - k)) (amt amounts i k) in
  if js_gt candidate (ans (answers t) i j)
  then Tables (write2 i j candidate (answers t)) (write2 i j (j - k)%nat (parents t))
  else t.

Definition fillCell (amounts : list (list Z)) (i : nat) (t : tables) (j : nat) : tables :=
  let t := Tables (write2 i j (ans (answers t) (i - 1) j) (answers t))
                  (write2 i j j (parents t)) in
  fold_left (tryPart amounts i j) (seq 1 j) t.

Definition fillRow (amounts : list (list Z)) (s : nat) (t : tables) (i : nat) : tables :=
  fold_left (fillCell amounts i) (seq 0 (s + 1)) t.

Definition dpTables (amounts : list (list Z)) (n s : nat) : tables :=
  let t := allocate n s in
  let t := fold_left (initColumn amounts n) (seq 0 (s + 1)) t in
  fold_left (fillRow amounts s) (seq 1 (n - 1)) t.

Definition findBestDistribution (s : nat) (amounts : list (list Z)) : outcome result :=
  let n := length amounts in
  if bool_decide (n = 0%nat) then Throw "TypeError"
  else
    let t := dpTables amounts n s in
    let distribution := reconstruct (parents t) n s (replicate n 0) in
    let last := ans (answers t) (n - 1) s in
    let returnAmount :=
      if bool_decide (last = Num VERY_NEGATIVE_VALUE) then Num 0 else last in
    Return (Result returnAmount distribution).

End Reference.

(** *** Exhaustive search over the splits, as the specification words it *)

(** All ways to give [parts] parts to [k] venues, first venue first. *)
Fixpoint splits (k parts : nat) : list (list nat) :=
  match k with
  | O => if bool_decide (parts = 0%nat) then [[]] else []
  | S k' =>
      flat_map (fun a => map (cons a) (splits k' (parts - a))) (seq 0 (parts + 1))
  end.

(** Output of a split: the sum over the venues of [amounts[i][k_i]]. *)
Fixpoint splitOutput (amounts : list (list Z)) (d : list nat) : Z :=
  match amounts, d with
  | row :: amounts', k :: d' => default 0 (row !! k) + splitOutput amounts' d'
  | _, _ => 0
  end.

Definition maxOverSplits (amounts : list (list Z)) (parts : nat) : option Z :=
  match map (splitOutput amounts) (splits (length amounts) parts) with
  | [] => None
  | v :: vs => Some (fold_left Z.max vs v)
  end.

(** *** Predicates used to state the properties *)

Definition dims {A} (m : list (list A)) : list nat := length <$> m.

Definition shaped (pools parts : nat) (t : tables) : Prop :=
  dims (answers t) = replicate pools (parts + 1)%nat ∧
  dims (parents t) = replicate pools (parts + 1)%nat.

(** [t'] agrees with [t] on every row but [p]. *)
Definition same_off (p : nat) (t t' : tables) : Prop :=
  ∀ q, q ≠ p → answers t' !! q = answers t !! q ∧ parents t' !! q = parents t !! q.

Definition short (amounts : list (list Z)) (parts : nat) : Prop :=
  ∀ q row, amounts !! q = Some row → (length row ≤ parts)%nat.

(** A quote matrix: at least one venue, every row of the same length. *)
Definition quoteMatrix (len : nat) (amounts : list (list Z)) : Prop :=
  amounts ≠ [] ∧ Forall (fun row => length row = len) amounts.

End DpSolver.

(** ** The router contract (UniswapV3DexRouter) *)

Module Router.

(** Solidity value types: [address], [uint24], [uint256] and [int256] are
    integers; the conversions between them wrap as Solidity's explicit
    conversions do. *)
Definition uint256 (z : Z) : Z := z mod 2 ^ 256.
Definition uint160 (z : Z) : Z := z mod 2 ^ 160.
Definition int256 (z : Z) : Z :=
  let u := z mod 2 ^ 256 in if u <? 2 ^ 255 then u else u - 2 ^ 256.
Definition int256_min : Z := - 2 ^ 255.

(** [n] bytes of [z], most significant first. *)
Fixpoint be_bytes (n : nat) (z : Z) : list Z :=
  match n with
  | O => []
  | S n' => be_bytes n' (z / 256) ++ [z mod 256]
  end.

Definition from_be (bs : list Z) : Z := fold_left (fun acc b => acc * 256 + b) bs 0.

Record Route : Type := {
  pair : Z;
  fee : Z;
  tokenIn : Z;
  tokenOut : Z;
  amountIn : Z
}.

Record SwapCallbackData : Type := {
  token0 : Z;
  token1 : Z;
  poolFee : Z
}.

(** Why a call reverts. *)
Inductive revert_reason : Type :=
| TransferTokenInFailed (tokenIn spender amount : Z)
| InvalidPool (pool : Z)
| DeadlinePassed (deadline : Z)
| Error (msg : string)        (* require(cond, msg) *)
| Panic (code : Z)            (* checked arithmetic *)
| DecodeFailed                (* abi.decode on malformed data *)
| ExternalRevert.             (* raised inside the pool or the token itself *)

Inductive res (A : Type) : Type :=
| Ok (a : A)
| Revert (e : revert_reason).
Arguments Ok {A} a.
Arguments Revert {A} e.

(** The specification's names for the contract's failures. *)
Definition UntrustedCallback : revert_reason := Error "DexRouter: invalid caller".
Definition PayerNotBound : revert_reason := Error "DexRouter: no payer registered".
Definition SlippageViolation : revert_reason :=
  Error "DexRouter: total amount out is less than min amount out".

(** The contract's state: the transient slot [PAYER_T_SLOT] and, beyond the
    contract, the asset ledger. *)
Record World (Ledger : Type) : Type := {
  payer : Z;
  ledger : Ledger
}.
Arguments Build_World {Ledger} payer ledger.
Arguments payer {Ledger} w.
Arguments ledger {Ledger} w.

(** What lies outside the contract: the hash function, the factory address
    fixed by the constructor, the asset ledger (of any type [Ledger]) behind
    the [IERC20] interface and the pools behind [IUniswapV3Pool]. *)
Class Chain (Ledger : Type) : Type := {
  keccak256 : list Z → Z;
  I_FACTORY : Z;
  (** [IERC20(token).transferFrom(from, to, value)] called by the router:
      [None] when the token itself reverts, otherwise the returned flag. *)
  transferFrom : Z → Z → Z → Z → Ledger → option (bool * Ledger);
  (** First half of [pool.swap(recipient, zeroForOne, amountSpecified,
      sqrtPriceLimitX96, _)]: the pair [(amount0, amount1)] and the ledger
      once the output has been sent to the recipient; [None] when the pool
      reverts. *)
  poolQuote : Z → Z → bool → Z → Z → Ledger → option (Z * Z * Ledger);
  (** Second half: the pool's own check of what it was paid during the
      callback, on the ledgers before and after it. *)
  poolPaid : Z → Z * Z → Ledger → Ledger → bool
}.

Section Contract.
Context {Ledger : Type} `{!Chain Ledger}.

Definition M (A : Type) : Type := World Ledger → res (A * World Ledger).

Definition ret {A} (a : A) : M A := fun w => Ok (a, w).

Definition bind {A B} (m : M A) (k : A → M B) : M B :=
  fun w => match m w with
           | Ok (a, w') => k a w'
           | Revert e => Revert e
           end.

Definition revert {A} (e : revert_reason) : M A := fun _ => Revert e.

Definition require (cond : bool) (msg : string) : M unit :=
  if cond then ret tt else revert (Error msg).

Definition tstore (who : Z) : M unit :=
  fun w => Ok (tt, {| payer := who; ledger := ledger w |}).

Definition tload : M Z := fun w => Ok (payer w, w).

Definition POOL_INIT_CODE_HASH : Z :=
  0xe34f199b19b2b4f47f68442619d555527d244f78a3297ea89325f843f87b8b54.

(** [abi.encode] of three static values and its inverse on
    [SwapCallbackData]; decoding checks the length and the range of each
    field. *)
Definition abi_encode3 (a b c : Z) : list Z :=
  be_bytes 32 a ++ be_bytes 32 b ++ be_bytes 32 c.

Definition abi_encode (d : SwapCallbackData) : list Z :=
  abi_encode3 (token0 d) (token1 d) (poolFee d).

Definition abi_decode (data : list Z) : option SwapCallbackData :=
  if bool_decide (length data < 96)%nat then None
  else
    let w0 := from_be (take 32 data) in
    let w1 := from_be (take 32 (drop 32 data)) in
    let w2 := from_be (take 32 (drop 64 data)) in
    if bool_decide (w0 < 2 ^ 160 ∧ w1 < 2 ^ 160 ∧ w2 < 2 ^ 24)
    then Some {| token0 := w0; token1 := w1; poolFee := w2 |}
    else None.

Definition computePoolAddress (token0 token1 poolFee : Z) : res Z :=
  if bool_decide (token0 < token1) then
    let salt := keccak256 (abi_encode3 token0 token1 poolFee) in
    Ok (uint160 (uint256 (keccak256
          ([255] ++ be_bytes 20 I_FACTORY ++ be_bytes 32 salt
                 ++ be_bytes 32 POOL_INIT_CODE_HASH))))
  else Revert (Error "DexRouter: token0 must be < token1").

(** A view function lifted into the contract's monad. *)
Definition view {A} (r : res A) : M A :=
  fun w => match r with Ok a => Ok (a, w) | Revert e => Revert e end.

(** One [transferFrom] of the callback: a [false] flag becomes
    [TransferTokenInFailed]. *)
Definition payPool (token from pool amountToPay : Z) : M unit :=
  fun w =>
    match transferFrom token from pool amountToPay (ledger w) with
    | None => Revert ExternalRevert
    | Some (true, l) => Ok (tt, {| payer := payer w; ledger := l |})
    | Some (false, _) => Revert (TransferTokenInFailed token from amountToPay)
    end.

Definition uniswapV3SwapCallback (msg_sender amount0Delta amount1Delta : Z)
           (data : list Z) : M unit :=
  let pool := msg_sender in
  match abi_decode data with
  | None => revert DecodeFailed
  | Some callbackData =>
      bind (view (computePoolAddress (token0 callbackData) (token1 callbackData)
                                     (poolFee callbackData))) (fun expectedPool =>
      bind (require (bool_decide (pool = expectedPool)) "DexRouter: invalid caller") (fun _ =>
      bind tload (fun payer =>
      bind (require (bool_decide (payer ≠ 0)) "DexRouter: no payer registered") (fun _ =>
      if bool_decide (0 < amount0Delta) then
        payPool (token0 callbackData) payer pool (uint256 amount0Delta)
      else if bool_decide (0 < amount1Delta) then
        payPool (token1 callbackData) payer pool (uint256 amount1Delta)
      else ret tt))))
  end.

(** [IUniswapV3Pool(pool).swap(...)] called by the router: the pool fixes the
    two amounts and sends the output, calls the router back for the payment,
    checks it, and returns the amounts. A revert of the callback is a revert
    of the swap. *)
Definition pool_swap (pool recipient : Z) (zeroForOne : bool)
           (amountSpecified sqrtPriceLimitX96 : Z) (data : list Z) : M (Z * Z) :=
  fun w =>
    match poolQuote pool recipient zeroForOne amountSpecified sqrtPriceLimitX96 (ledger w) with
    | None => Revert ExternalRevert
    | Some (amount0, amount1, l1) =>
        match uniswapV3SwapCallback pool amount0 amount1 data
                                    {| payer := payer w; ledger := l1 |} with
        | Revert e => Revert e
        | Ok (_, w2) =>
            if poolPaid pool (amount0, amount1) l1 (ledger w2)
            then Ok ((amount0, amount1), w2)
            else Revert ExternalRevert
        end
    end.

(** Checked negation of an [int256] followed by the conversion to
    [uint256]. *)
Definition negated (amount : Z) : M Z :=
  if bool_decide (amount = int256_min) then revert (Panic 0x11)
  else ret (uint256 (- amount)).

Definition _swapByUniswapV3 (msg_sender : Z) (r : Route) : M Z :=
  bind (require (bool_decide (tokenIn r ≠ tokenOut r)) "DexRouter: tokenIn == tokenOut") (fun _ =>
  let zeroForOne := bool_decide (tokenIn r < tokenOut r) in
  let token0 := if zeroForOne then tokenIn r else tokenOut r in
  let token1 := if zeroForOne then tokenOut r else tokenIn r in
  bind (view (computePoolAddress token0 token1 (fee r))) (fun expectedPool =>
  bind (require (bool_decide (pair r = expectedPool)) "DexRouter: invalid pool address") (fun _ =>
  let callbackData := {| token0 := token0; token1 := token1; poolFee := fee r |} in
  bind (pool_swap (pair r) msg_sender zeroForOne (int256 (amountIn r)) 0
                  (abi_encode callbackData)) (fun '(amount0, amount1) =>
  if zeroForOne then negated amount1 else negated amount0)))).

(** The loop of [aggregateSwap]; the addition is unchecked. *)
Fixpoint swapRoutes (msg_sender : Z) (routes : list Route) (totalAmountOut : Z) : M Z :=
  match routes with
  | [] => ret totalAmountOut
  | r :: routes' =>
      bind (_swapByUniswapV3 msg_sender r) (fun amountOut =>
      swapRoutes msg_sender routes' (uint256 (totalAmountOut + amountOut)))
  end.

(** [aggregateSwap] declares no return value: what it hands back is the
    empty return data. *)
Definition aggregateSwap (msg_sender block_timestamp : Z) (routes : list Route)
           (minAmountOut deadline : Z) : M (list Z) :=
  if bool_decide (deadline < block_timestamp) then revert (DeadlinePassed deadline)
  else
    bind (tstore msg_sender) (fun _ =>
    bind (swapRoutes msg_sender routes 0) (fun totalAmountOut =>
    bind (require (bool_decide (minAmountOut ≤ totalAmountOut))
                  "DexRouter: total amount out is less than min amount out") (fun _ =>
    ret []))).

(** The amounts the legs hand back, leg by leg. *)
Fixpoint legOutputs (msg_sender : Z) (routes : list Route) : M (list Z) :=
  match routes with
  | [] => ret []
  | r :: routes' =>
      bind (_swapByUniswapV3 msg_sender r) (fun amountOut =>
      bind (legOutputs msg_sender routes') (fun rest => ret (amountOut :: rest)))
  end.

(** The run of the payment callback that leg [r] triggers when it starts in
    [w]; [None] when the leg stops before its pool calls back. *)
Definition legCallback (msg_sender : Z) (r : Route) (w : World Ledger) : option (res (unit * World Ledger)) :=
  let zeroForOne := bool_decide (tokenIn r < tokenOut r) in
  let token0 := if zeroForOne then tokenIn r else tokenOut r in
  let token1 := if zeroForOne then tokenOut r else tokenIn r in
  if bool_decide (tokenIn r ≠ tokenOut r) then
    match computePoolAddress token0 token1 (fee r) with
    | Ok expectedPool =>
        if bool_decide (pair r = expectedPool) then
          match poolQuote (pair r) msg_sender zeroForOne (int256 (amountIn r)) 0 (ledger w) with
          | Some (amount0, amount1, l1) =>
              Some (uniswapV3SwapCallback (pair r) amount0 amount1
                      (abi_encode {| token0 := token0; token1 := token1; poolFee := fee r |})
                      {| payer := payer w; ledger := l1 |})
          | None => None
          end
        else None
    | Revert _ => None
    end
  else None.

(** A message call from outside: a revert leaves the state as it was. *)
Definition call {A} (m : M A) (w : World Ledger) : res A * World Ledger :=
  match m w with
  | Ok (a, w') => (Ok a, w')
  | Revert e => (Revert e, w)
  end.

(** The end of the transaction discards transient storage. *)
Definition endTransaction (w : World Ledger) : World Ledger :=
  {| payer := 0; ledger := ledger w |}.

End Contract.

Arguments M Ledger A : clear implicits.

End Router.

(** ** A small chain on which the contract can be run

    A stand-in hash, a ledger of balances without allowances, and pools that
    trade at the fixed rate of two units of the output asset for one unit of
    the input asset. *)

Module Scenario.
Import Router.

Definition toyHash (bs : list Z) : Z :=
  fold_left (fun h b => (h * 31 + b + 1) mod 1000003) bs 7.

Definition USDC : Z := 100.
Definition WETH : Z := 200.
Definition alice : Z := 1000.
Definition factory : Z := 31337.

(** Balances, one entry per token and holder. *)
Definition balances : Type := gmap Z (gmap Z Z).

Definition balanceOf (l : balances) (token who : Z) : Z :=
  default 0 (l !! token ≫= (.!! who)).

Definition setBalance (token who value : Z) (l : balances) : balances :=
  <[token := <[who := value]> (default ∅ (l !! token))]> l.

Definition move (token from to value : Z) (l : balances) : balances :=
  let l := setBalance token from (balanceOf l token from - value) l in
  setBalance token to (balanceOf l token to + value) l.

Definition toyTransferFrom (token from to value : Z) (l : balances)
  : option (bool * balances) :=
  if bool_decide (value ≤ balanceOf l token from)
  then Some (true, move token from to value l)
  else Some (false, l).

Definition toyQuote (pool recipient : Z) (zeroForOne : bool) (amountSpecified limit : Z)
           (l : balances) : option (Z * Z * balances) :=
  let out := 2 * amountSpecified in
  let tokenOut := if zeroForOne then WETH else USDC in
  if bool_decide (out ≤ balanceOf l tokenOut pool)
  then Some (if zeroForOne then (amountSpecified, - out) else (- out, amountSpecified),
             move tokenOut pool recipient out l)
  else None.

Definition toyPaid (pool : Z) (amounts : Z * Z) (before after : balances) : bool :=
  bool_decide (balanceOf before USDC pool + Z.max 0 (fst amounts) ≤ balanceOf after USDC pool ∧
               balanceOf before WETH pool + Z.max 0 (snd amounts) ≤ balanceOf after WETH pool).

#[export] Instance toyChain : Chain balances := {|
  keccak256 := toyHash;
  I_FACTORY := factory;
  transferFrom := toyTransferFrom;
  poolQuote := toyQuote;
  poolPaid := toyPaid
|}.

(** The pool of the pair at a fee tier, as the contract derives it. *)
Definition poolAt (fee : Z) : Z :=
  match computePoolAddress USDC WETH fee with
  | Ok a => a
  | Revert _ => 0
  end.

Definition leg (fee amountIn : Z) : Route :=
  {| pair := poolAt fee; fee := fee; tokenIn := USDC; tokenOut := WETH; amountIn := amountIn |}.

Definition threeLegs : list Route := [leg 500 30; leg 3000 50; leg 10000 20].

(** Every pool holds 1000 WETH; alice holds [usdc] USDC; no payer is bound. *)
Definition world (usdc : Z) : World balances :=
  {| payer := 0;
     ledger := setBalance USDC alice usdc
               (setBalance WETH (poolAt 500) 1000
               (setBalance WETH (poolAt 3000) 1000
               (setBalance WETH (poolAt 10000) 1000 ∅))) |}.

(** The state in which the three legs leave the chain when alice can pay. *)
Definition settled : World balances :=
  snd (call (aggregateSwap alice 10 threeLegs 0 20) (world 100)).

(** The state a run ends in, [w] when it reverts. *)
Definition stateAfter {A L} (r : res (A * World L)) (w : World L) : World L :=
  match r with
  | Ok (_, w') => w'
  | Revert _ => w
  end.

(** The state after the first leg when alice holds only 50 USDC. *)
Definition afterFirstLeg : World balances :=
  stateAfter (swapRoutes alice [leg 500 30] 0 {| payer := alice; ledger := ledger (world 50) |})
             (world 50).

End Scenario.

(** ** Predicates and reference functions for the further properties *)

Module SolverSpec.
Import DpSolver.

(** The back-pointers never exceed their column, and the first row of
    [parents] is never given anything but 0. *)
Definition bounded (parents : list (list nat)) : Prop :=
  ∀ p s, (par parents p s ≤ s)%nat.

Definition firstRowZero (parents : list (list nat)) : Prop :=
  ∀ s, par parents 0 s = 0%nat.

Definition parentsOk (t : tables) : Prop := bounded (parents t) ∧ firstRowZero (parents t).

(** [amounts[i][k]] as an integer, 0 past the end. *)
Definition cell (amounts : list (list Z)) (i k : nat) : Z :=
  default 0 (read2 amounts i k).

(** The greatest of [f 0 .. f j]. *)
Fixpoint maxUpTo (f : nat → Z) (j : nat) : Z :=
  match j with
  | O => f 0%nat
  | S j' => Z.max (maxUpTo f j') (f (S j'))
  end.

(** The recurrence of the allocation problem: the best output of [j] parts
    among the venues [0 .. i]. *)
Fixpoint best (amounts : list (list Z)) (i j : nat) : Z :=
  match i with
  | O => cell amounts 0 j
  | S i' => maxUpTo (fun k => best amounts i' (j - k) + cell amounts (S i') k) j
  end.

(** A split of [parts] parts among [n] venues. *)
Definition isSplit (n parts : nat) (d : list nat) : Prop :=
  length d = n ∧ sum_list d = parts.

(** A matrix the documented implementation can be run on with [s] parts:
    every row has an entry for each of [0 .. s] parts, and nothing is quoted
    for zero parts on the venues after the first. *)
Definition quotesFor (s : nat) (amounts : list (list Z)) : Prop :=
  amounts ≠ [] ∧
  (∀ i row, amounts !! i = Some row → (s < length row)%nat) ∧
  (∀ i, i ≠ 0%nat → cell amounts i 0 = 0).

(** [t'] differs from [t] at most in the cell [(p, s)] of both tables. *)
Definition cellOnly (p s : nat) (t t' : tables) : Prop :=
  ∀ p' s', (p', s') ≠ (p, s) →
    read2 (answers t') p' s' = read2 (answers t) p' s' ∧
    read2 (parents t') p' s' = read2 (parents t) p' s'.

(** [t'] differs from [t] at most in row [p], from column [from] on. *)
Definition rowOnly (p from : nat) (t t' : tables) : Prop :=
  ∀ p' s', p' ≠ p ∨ (s' < from)%nat →
    read2 (answers t') p' s' = read2 (answers t) p' s' ∧
    read2 (parents t') p' s' = read2 (parents t) p' s'.

(** What the reference tables hold at [(i, j)]: the best output, and a
    back-pointer that realises it with the least allocation to venue [i]. *)
Definition cellOk (amounts : list (list Z)) (t : tables) (i j : nat) : Prop :=
  ans (answers t) i j = Num (best amounts i j) ∧
  match i with
  | O => par (parents t) i j = 0%nat
  | S i' =>
      let q := par (parents t) i j in
      (q ≤ j)%nat ∧
      best amounts i j = best amounts i' q + cell amounts i (j - q) ∧
      ∀ k, (k < j - q)%nat → best amounts i' (j - k) + cell amounts i k < best amounts i j
  end.

(** What the walk back leaves at level [i] of the returned split [d]: the
    first [i + 1] entries are a best split of their total [L], and entry [i]
    is 0 or what the back-pointer at [(i, L)] says. *)
Definition levelOk (amounts : list (list Z)) (s : nat) (t : tables) (d : list nat) (i : nat) : Prop :=
  ∃ L, (L ≤ s)%nat ∧ sum_list (take (S i) d) = L ∧
       splitOutput (take (S i) amounts) (take (S i) d) = best amounts i L ∧
       (d !! i = Some 0%nat ∨ d !! i = Some (L - par (parents t) i L)%nat).

End SolverSpec.

(** ** More states of the small chain *)

Module Runs.
Import Router Scenario.

(** The context of the 0.05% pool. *)
Definition lowFeeContext : SwapCallbackData :=
  {| token0 := USDC; token1 := WETH; poolFee := 500 |}.

(** Alice bound as payer, holding 100 USDC. *)
Definition bound : World balances :=
  {| payer := alice; ledger := ledger (world 100) |}.

(** The state after the 0.05% pool has been paid 30 USDC by its callback. *)
Definition paidOnce : World balances :=
  stateAfter (uniswapV3SwapCallback (poolAt 500) 30 (-60) (abi_encode lowFeeContext) bound)
             bound.

End Runs.

(** * Properties of the split solver *)

Section Tables.
Context {A : Type}.
Implicit Types (m : list (list A)) (p k : nat) (v : A).

Lemma length_write2 p k v m : length (write2 p k v m) = length m.
Proof. unfold write2. apply length_alter. Qed.

Lemma read2_write2_ne p k v m p' k' :
  (p, k) ≠ (p', k') → read2 (write2 p k v m) p' k' = read2 m p' k'.
Proof.
  intros Hne. unfold read2, write2.
  destruct (decide (p = p')) as [->|Hp].
  - rewrite list_lookup_alter_eq. destruct (m !! p') as [row|]; simpl; [|done].
    apply list_lookup_insert_ne. congruence.
  - by rewrite list_lookup_alter_ne.
Qed.

Lemma read2_write2_eq p k v m row :
  m !! p = Some row → (k < length row)%nat → read2 (write2 p k v m) p k = Some v.
Proof.
  intros Hrow Hk. unfold read2, write2.
  rewrite list_lookup_alter_eq, Hrow. simpl. by apply list_lookup_insert_eq.
Qed.

Lemma row_write2_ne p k v m p' : p ≠ p' → write2 p k v m !! p' = m !! p'.
Proof. intros. unfold write2. by apply list_lookup_alter_ne. Qed.

Lemma row_write2_eq p k v m : write2 p k v m !! p = <[k := v]> <$> m !! p.
Proof. unfold write2. apply list_lookup_alter_eq. Qed.
End Tables.

Section DpSolverFacts.
Import DpSolver.

(** *** Shape of the tables and frame lemmas *)

Lemma dims_write2 {A} p k (v : A) m : dims (write2 p k v m) = dims m.
Proof.
  unfold dims, write2. revert p. induction m as [|row m IH]; intros [|p]; try done.
  - cbn. by rewrite length_insert.
  - cbn. f_equal. apply IH.
Qed.

Lemma dims_row {A} (m : list (list A)) n w p :
  dims m = replicate n w → (p < n)%nat → ∃ row, m !! p = Some row ∧ length row = w.
Proof.
  intros Hd Hp.
  assert (Hl : dims m !! p = Some w) by (rewrite Hd; by apply lookup_replicate_2).
  unfold dims in Hl. rewrite list_lookup_fmap in Hl.
  destruct (m !! p) as [row|]; simplify_eq/=. eauto.
Qed.

Lemma same_off_refl p t : same_off p t t.
Proof. by intros q _. Qed.

Lemma same_off_trans p t1 t2 t3 : same_off p t1 t2 → same_off p t2 t3 → same_off p t1 t3.
Proof.
  intros H12 H23 q Hq. destruct (H12 q Hq) as [<- <-]. by apply H23.
Qed.

Lemma js_gt_undefined a : js_gt a Undefined = false.
Proof. by destruct a. Qed.

Lemma shaped_cell pools parts t p s v w :
  shaped pools parts t →
  shaped pools parts (Tables (write2 p s v (answers t)) (write2 p s w (parents t))).
Proof. intros [Ha Hp]. split; simpl; by rewrite dims_write2. Qed.

Lemma same_off_cell p s v w t :
  same_off p t (Tables (write2 p s v (answers t)) (write2 p s w (parents t))).
Proof. intros q Hq. simpl. by rewrite !row_write2_ne. Qed.

Lemma tryPart_shaped amounts pools parts p s t k :
  shaped pools parts t → shaped pools parts (tryPart amounts p s t k).
Proof. intros H. unfold tryPart. case_match; [by apply shaped_cell|done]. Qed.

Lemma tryPart_same_off amounts p s t k : same_off p t (tryPart amounts p s t k).
Proof. unfold tryPart. case_match; [apply same_off_cell|apply same_off_refl]. Qed.

(** A loop whose body keeps an invariant and a frame keeps both. *)
Lemma fold_left_keeps {B} (f : tables → B → tables) (I : tables → Prop)
      (R : tables → tables → Prop) (l : list B) t :
  (∀ t, R t t) → (∀ t1 t2 t3, R t1 t2 → R t2 t3 → R t1 t3) →
  (∀ t b, I t → I (f t b)) → (∀ t b, R t (f t b)) →
  I t → I (fold_left f l t) ∧ R t (fold_left f l t).
Proof.
  intros Hrefl Htrans HI HR. revert t. induction l as [|b l IH]; intros t Ht; simpl.
  - eauto.
  - destruct (IH (f t b)) as [? ?]; [by apply HI|]. split; [done|].
    eapply Htrans; [apply HR|done].
Qed.

Lemma fillCell_keeps amounts pools parts p t s :
  shaped pools parts t →
  shaped pools parts (fillCell amounts p t s) ∧ same_off p t (fillCell amounts p t s).
Proof.
  intros Ht. unfold fillCell.
  destruct (fold_left_keeps (tryPart amounts p s) (shaped pools parts) (same_off p) (seq 1 s)
    (Tables (write2 p s (ans (answers t) (p - 1) s) (answers t)) (write2 p s s (parents t))))
    as [? ?].
  - apply same_off_refl.
  - apply same_off_trans.
  - intros. by apply tryPart_shaped.
  - intros. apply tryPart_same_off.
  - by apply shaped_cell.
  - split; [done|]. eapply same_off_trans; [apply same_off_cell|done].
Qed.

Lemma fillCells_keeps amounts pools parts p l t :
  shaped pools parts t →
  shaped pools parts (fold_left (fillCell amounts p) l t) ∧
  same_off p t (fold_left (fillCell amounts p) l t).
Proof.
  intros Ht. apply fold_left_keeps; [apply same_off_refl|apply same_off_trans| | |done].
  - intros t' b Ht'. by apply (fillCell_keeps amounts pools parts p t' b).
  - intros t' b q Hq. unfold fillCell.
    destruct (fold_left_keeps (tryPart amounts p b) (fun _ => True) (same_off p) (seq 1 b)
      (Tables (write2 p b (ans (answers t') (p - 1) b) (answers t')) (write2 p b b (parents t'))))
      as [_ H]; [apply same_off_refl|apply same_off_trans|done|
                 intros; apply tryPart_same_off|done|].
    destruct (H q Hq) as [-> ->]. simpl. by rewrite !row_write2_ne.
Qed.

(** *** The last column of the tables

    [parts] is the length of the first row, so the column [s = parts] lies
    one past the end of every row that is not longer than the first: there
    [amounts[p - 1][s]] is [undefined] and no candidate passes the test. *)

Lemma amt_past amounts parts q : short amounts parts → amt amounts q parts = Undefined.
Proof.
  intros Hs. unfold amt, read2. destruct (amounts !! q) as [row|] eqn:Hq; [|done].
  simpl. rewrite lookup_ge_None_2; [done|]. by eapply Hs.
Qed.

Lemma fillCell_dead amounts p t s :
  amt amounts (p - 1) s = Undefined →
  fillCell amounts p t s
  = Tables (write2 p s (ans (answers t) (p - 1) s) (answers t)) (write2 p s s (parents t)).
Proof.
  intros Hu. unfold fillCell.
  generalize (Tables (write2 p s (ans (answers t) (p - 1) s) (answers t))
                     (write2 p s s (parents t))).
  induction (seq 1 s) as [|k l IH]; intros t0; simpl; [done|].
  rewrite <- (IH t0) at 2. f_equal. unfold tryPart. by rewrite Hu, js_gt_undefined.
Qed.

Lemma ans_same_off p t t' q s : same_off p t t' → q ≠ p →
  ans (answers t') q s = ans (answers t) q s.
Proof. intros H Hq. unfold ans, read2. by destruct (H q Hq) as [-> _]. Qed.

Lemma par_same_off p t t' q s : same_off p t t' → q ≠ p →
  par (parents t') q s = par (parents t) q s.
Proof. intros H Hq. unfold par, read2. by destruct (H q Hq) as [_ ->]. Qed.

Lemma fillRow_last amounts pools parts t p :
  short amounts parts → shaped pools parts t → (1 ≤ p < pools)%nat →
  let t' := fillRow amounts parts t p in
  shaped pools parts t' ∧ same_off p t t' ∧
  ans (answers t') p parts = ans (answers t) (p - 1) parts ∧
  par (parents t') p parts = parts.
Proof.
  intros Hs Ht Hp. unfold fillRow.
  replace (parts + 1)%nat with (S parts) by lia.
  rewrite seq_S, fold_left_app. simpl.
  destruct (fillCells_keeps amounts pools parts p (seq 0 parts) t Ht) as [Hsh Hfr].
  set (t1 := fold_left (fillCell amounts p) (seq 0 parts) t) in *.
  rewrite fillCell_dead by by apply amt_past.
  split; [by apply shaped_cell|]. split.
  { eapply same_off_trans; [done|apply same_off_cell]. }
  destruct Hsh as [Ha Hq].
  destruct (dims_row _ _ _ p Ha) as (ra & Hra & Hla); [lia|].
  destruct (dims_row _ _ _ p Hq) as (rq & Hrq & Hlq); [lia|].
  unfold ans, par. simpl.
  rewrite (read2_write2_eq _ _ _ _ ra), (read2_write2_eq _ _ _ _ rq) by (done || lia).
  simpl. split; [|done]. apply (ans_same_off p); [done|lia].
Qed.

Lemma allocate_shaped pools parts : shaped pools parts (allocate pools parts).
Proof.
  unfold shaped, allocate, dims. simpl.
  by rewrite !fmap_replicate, !length_replicate.
Qed.

Lemma clearColumn_dims s (l : list nat) (a : list (list jsval)) :
  dims (fold_left (fun a p => write2 p s NegInfinity a) l a) = dims a.
Proof.
  revert a. induction l as [|p l IH]; intros a; simpl; [done|].
  by rewrite IH, dims_write2.
Qed.

Lemma clearColumn_row0 s (l : list nat) (a : list (list jsval)) :
  Forall (fun p => p ≠ 0%nat) l →
  fold_left (fun a p => write2 p s NegInfinity a) l a !! 0%nat = a !! 0%nat.
Proof.
  intros Hl. revert a. induction Hl as [|p l Hp _ IH]; intros a; simpl; [done|].
  by rewrite IH, row_write2_ne.
Qed.

Lemma initColumn_shaped amounts pools parts t s :
  shaped pools parts t → shaped pools parts (initColumn amounts pools t s).
Proof.
  intros [Ha Hp]. unfold initColumn. split; simpl.
  - by rewrite clearColumn_dims, dims_write2.
  - by rewrite dims_write2.
Qed.

Lemma seq_from_1_nonzero n : Forall (fun p => p ≠ 0%nat) (seq 1 n).
Proof. apply Forall_forall. intros p Hp%elem_of_seq. lia. Qed.

(** After the first phase: the corner cell of the first row. *)
Lemma init_last amounts pools parts :
  short amounts parts → (1 ≤ pools)%nat →
  let t := fold_left (initColumn amounts pools) (seq 0 (parts + 1)) (allocate pools parts) in
  shaped pools parts t ∧ ans (answers t) 0 parts = Undefined ∧ par (parents t) 0 parts = 0%nat.
Proof.
  intros Hs Hpools.
  replace (parts + 1)%nat with (S parts) by lia.
  rewrite seq_S, fold_left_app. simpl.
  set (t1 := fold_left (initColumn amounts pools) (seq 0 parts) (allocate pools parts)).
  assert (Ht1 : shaped pools parts t1).
  { subst t1. generalize (allocate_shaped pools parts).
    generalize (allocate pools parts). induction (seq 0 parts) as [|s l IH]; intros t Ht; [done|].
    simpl. apply IH. by apply initColumn_shaped. }
  split; [by apply initColumn_shaped|].
  destruct Ht1 as [Ha Hp].
  destruct (dims_row _ _ _ 0%nat Ha) as (ra & Hra & Hla); [lia|].
  destruct (dims_row _ _ _ 0%nat Hp) as (rp & Hrp & Hlp); [lia|].
  unfold initColumn, ans, par, read2. simpl.
  rewrite clearColumn_row0 by apply seq_from_1_nonzero.
  rewrite !row_write2_eq, Hra, Hrp. simpl.
  rewrite !list_lookup_insert_eq by lia. simpl.
  split; [|done]. by apply amt_past.
Qed.

(** After the rows [1 .. k] have been filled. *)
Lemma fill_last amounts pools parts k :
  short amounts parts → (k < pools)%nat →
  let t := fold_left (fillRow amounts parts) (seq 1 k)
             (fold_left (initColumn amounts pools) (seq 0 (parts + 1)) (allocate pools parts)) in
  shaped pools parts t ∧
  (∀ q, (q ≤ k)%nat → ans (answers t) q parts = Undefined) ∧
  par (parents t) 0 parts = 0%nat ∧
  (∀ q, (1 ≤ q ≤ k)%nat → par (parents t) q parts = parts).
Proof.
  intros Hs. induction k as [|k IH]; intros Hk.
  - destruct (init_last amounts pools parts Hs) as (Hsh & Ha & Hp); [lia|].
    simpl. split; [done|]. split; [|split; [done|]].
    + intros q Hq. by replace q with 0%nat by lia.
    + intros q Hq. lia.
  - rewrite seq_S, fold_left_app. simpl.
    destruct IH as (Hsh & Ha & Hp0 & Hp); [lia|].
    set (t := fold_left (fillRow amounts parts) (seq 1 k) _) in *.
    destruct (fillRow_last amounts pools parts t (S k) Hs Hsh) as (Hsh' & Hfr & Ha' & Hp'); [lia|].
    split; [done|]. split; [|split].
    + intros q Hq. destruct (decide (q = S k)) as [->|Hne].
      * rewrite Ha'. apply Ha. lia.
      * rewrite (ans_same_off (S k) t) by done. apply Ha. lia.
    + by rewrite (par_same_off (S k) t) by done.
    + intros q Hq. destruct (decide (q = S k)) as [->|Hne]; [done|].
      rewrite (par_same_off (S k) t) by done. apply Hp. lia.
Qed.

(** The walk back over such a [parents] table gives every part to the
    first pool. *)
Lemma reconstruct_first parents n parts m :
  par parents 0 parts = 0%nat →
  (∀ q, (1 ≤ q < n)%nat → par parents q parts = parts) →
  (1 ≤ n)%nat →
  reconstruct parents n parts (replicate m 0) = <[0%nat := Z.of_nat parts]> (replicate m 0).
Proof.
  intros H0 Hq Hn. induction n as [|[|p] IH]; [lia| |].
  - simpl. case_bool_decide as Hpos.
    + rewrite H0. simpl. by rewrite Z.sub_0_r.
    + replace parts with 0%nat by lia. simpl. by rewrite insert_replicate.
  - cbn [reconstruct]. case_bool_decide as Hpos.
    + rewrite Hq by lia. rewrite Z.sub_diag, insert_replicate. apply IH; [|lia].
      intros q ?. apply Hq. lia.
    + replace parts with 0%nat by lia. simpl. by rewrite insert_replicate.
Qed.

Lemma quoteMatrix_short len amounts :
  quoteMatrix len amounts →
  ∃ row0, amounts !! 0%nat = Some row0 ∧ length row0 = len ∧ short amounts len.
Proof.
  intros [Hne Hall]. destruct amounts as [|row0 rest]; [done|].
  exists row0. split; [done|]. split.
  - by inversion Hall.
  - intros q row Hq. rewrite Forall_lookup in Hall. by rewrite (Hall q row Hq).
Qed.

(** What the solver returns whenever no row is longer than the first. *)
Lemma findBestDistribution_short amounts row0 :
  amounts !! 0%nat = Some row0 → short amounts (length row0) →
  findBestDistribution amounts
  = Return (Result Undefined
                   (<[0%nat := Z.of_nat (length row0)]> (replicate (length amounts) 0))).
Proof.
  intros H0 Hs. unfold findBestDistribution. rewrite H0.
  assert (Hlen : (1 ≤ length amounts)%nat).
  { apply lookup_lt_Some in H0. lia. }
  destruct (fill_last amounts (length amounts) (length row0) (length amounts - 1) Hs)
    as (Hsh & Ha & Hp0 & Hp); [lia|].
  fold (dpTables amounts (length amounts) (length row0)) in *.
  set (t := dpTables amounts (length amounts) (length row0)) in *.
  f_equal. f_equal.
  - destruct (decide (length amounts = 1%nat)) as [->|Hne].
    + simpl. unfold ans, read2. destruct Hsh as [Hd _].
      destruct (dims_row _ _ _ 0%nat Hd) as (ra & Hra & _); [lia|].
      rewrite list_lookup_insert_eq by (apply lookup_lt_Some in Hra; lia). simpl.
      rewrite lookup_ge_None_2; [done|]. by rewrite length_fmap.
    + unfold ans, read2. rewrite list_lookup_insert_ne by lia. apply Ha. lia.
  - apply reconstruct_first; [done| |done]. intros q Hq. apply Hp. lia.
Qed.

(** On a quote matrix whose rows have [len] entries the solver returns
    [undefined] as total and gives [len] parts to the first venue. *)
Lemma findBestDistribution_quoteMatrix len amounts :
  quoteMatrix len amounts →
  findBestDistribution amounts
  = Return (Result Undefined (<[0%nat := Z.of_nat len]> (replicate (length amounts) 0))).
Proof.
  intros (row0 & H0 & <- & Hs)%quoteMatrix_short. by apply findBestDistribution_short.
Qed.

End DpSolverFacts.

(** * Properties of the router *)

Section RouterFacts.
Import Router.
Context {Ledger : Type} `{!Chain Ledger}.

Lemma bind_Ok {A B} (m : M Ledger A) (k : A → M Ledger B) w b w' :
  bind m k w = Ok (b, w') ↔ ∃ a w1, m w = Ok (a, w1) ∧ k a w1 = Ok (b, w').
Proof.
  unfold bind. destruct (m w) as [[a w1]|e]; split.
  - eauto.
  - by intros (? & ? & [= <- <-] & ?).
  - done.
  - by intros (? & ? & ? & ?).
Qed.

Lemma bind_Revert {A B} (m : M Ledger A) (k : A → M Ledger B) w e :
  m w = Revert e → bind m k w = Revert e.
Proof. unfold bind. by intros ->. Qed.

Lemma bind_step {A B} (m : M Ledger A) (k : A → M Ledger B) w a w1 :
  m w = Ok (a, w1) → bind m k w = k a w1.
Proof. unfold bind. by intros ->. Qed.

Lemma call_Revert {A} (m : M Ledger A) w e : m w = Revert e → call m w = (Revert e, w).
Proof. unfold call. by intros ->. Qed.

(** *** The payer slot is written by [tstore] only *)

Lemma payPool_payer token from pool amount w u w' :
  payPool token from pool amount w = Ok (u, w') → payer w' = payer w.
Proof.
  unfold payPool. destruct (transferFrom _ _ _ _ _) as [[[] l]|]; [|done..].
  by intros [= _ <-].
Qed.

Lemma callback_payer sender a0 a1 data w u w' :
  uniswapV3SwapCallback sender a0 a1 data w = Ok (u, w') → payer w' = payer w.
Proof.
  unfold uniswapV3SwapCallback. destruct (abi_decode data) as [d|]; [|done].
  unfold bind, view, require, tload, ret, revert.
  destruct (computePoolAddress _ _ _) as [expected|]; [|done].
  repeat case_bool_decide; try done.
  - apply payPool_payer.
  - apply payPool_payer.
  - by intros [= _ <-].
Qed.

Lemma pool_swap_payer pool recipient zf amount limit data w r w' :
  pool_swap pool recipient zf amount limit data w = Ok (r, w') → payer w' = payer w.
Proof.
  unfold pool_swap. destruct (poolQuote _ _ _ _ _ _) as [[[a0 a1] l1]|]; [|done].
  destruct (uniswapV3SwapCallback _ _ _ _ _) as [[u w2]|] eqn:Hcb; [|done].
  apply callback_payer in Hcb. case_match; [|done]. by intros [= _ <-].
Qed.

Lemma swap_payer sender r w out w' :
  _swapByUniswapV3 sender r w = Ok (out, w') → payer w' = payer w.
Proof.
  unfold _swapByUniswapV3, bind, view, require, negated, ret, revert.
  case_bool_decide; [|done].
  destruct (computePoolAddress _ _ _) as [expected|]; [|done].
  case_bool_decide; [|done].
  destruct (pool_swap _ _ _ _ _ _ _) as [[[a0 a1] w2]|] eqn:Hswap; [|done].
  apply pool_swap_payer in Hswap.
  repeat case_match; try done; by intros [= _ <-].
Qed.

Lemma swapRoutes_payer sender routes acc w total w' :
  swapRoutes sender routes acc w = Ok (total, w') → payer w' = payer w.
Proof.
  revert acc w. induction routes as [|r routes IH]; intros acc w; simpl.
  - by intros [= _ <-].
  - intros (out & w1 & Hleg & Hrest)%bind_Ok.
    apply swap_payer in Hleg. apply IH in Hrest. congruence.
Qed.

(** *** The loop *)

Lemma swapRoutes_app sender l1 l2 acc w :
  swapRoutes sender (l1 ++ l2) acc w
  = bind (swapRoutes sender l1 acc) (swapRoutes sender l2) w.
Proof.
  revert acc w. induction l1 as [|r l1 IH]; intros acc w; simpl; [reflexivity|].
  unfold bind in *. destruct (_swapByUniswapV3 sender r w) as [[out w1]|e]; [|done].
  apply IH.
Qed.

Lemma uint256_add_l a b : uint256 (uint256 a + b) = uint256 (a + b).
Proof. unfold uint256. by rewrite Zplus_mod_idemp_l. Qed.

Lemma swapRoutes_sum sender routes acc w :
  swapRoutes sender routes (uint256 acc) w
  = bind (legOutputs sender routes) (fun outs => ret (uint256 (acc + sumZ outs))) w.
Proof.
  revert acc w. induction routes as [|r routes IH]; intros acc w; simpl.
  - unfold bind, ret. simpl. by rewrite Z.add_0_r.
  - unfold bind in *. destruct (_swapByUniswapV3 sender r w) as [[out w1]|e]; [|done].
    rewrite uint256_add_l, IH. unfold ret.
    destruct (legOutputs sender routes w1) as [[outs w2]|e]; [|done].
    simpl. by rewrite Z.add_assoc.
Qed.

(** *** A leg whose callback reverts *)

Lemma legCallback_Revert sender r w e :
  legCallback sender r w = Some (Revert e) → _swapByUniswapV3 sender r w = Revert e.
Proof.
  unfold legCallback, _swapByUniswapV3, bind, view, require, ret, revert.
  case_bool_decide; [|done].
  destruct (computePoolAddress _ _ _) as [expected|]; [|done].
  case_bool_decide; [|done].
  unfold pool_swap.
  destruct (poolQuote _ _ _ _ _ _) as [[[a0 a1] l1]|]; [|intros [=]].
  intros Hcb. apply (inj Some) in Hcb. rewrite Hcb. reflexivity.
Qed.

(** What the ledger's refusal becomes in the callback. *)
Lemma callback_transfer_rejected sender a0 a1 data d l w :
  abi_decode data = Some d →
  computePoolAddress (token0 d) (token1 d) (poolFee d) = Ok sender →
  payer w ≠ 0 → 0 < a0 →
  transferFrom (token0 d) (payer w) sender (uint256 a0) (ledger w) = Some (false, l) →
  uniswapV3SwapCallback sender a0 a1 data w
  = Revert (TransferTokenInFailed (token0 d) (payer w) (uint256 a0)).
Proof.
  intros Hd Hp Hpayer Ha Ht. unfold uniswapV3SwapCallback. rewrite Hd.
  unfold bind, view, require, tload, ret, revert. rewrite Hp.
  rewrite !bool_decide_eq_true_2 by (assumption || reflexivity). unfold payPool. rewrite Ht. reflexivity.
Qed.

Lemma callback_transfer_rejected_token1 sender a0 a1 data d l w :
  abi_decode data = Some d →
  computePoolAddress (token0 d) (token1 d) (poolFee d) = Ok sender →
  payer w ≠ 0 → a0 ≤ 0 → 0 < a1 →
  transferFrom (token1 d) (payer w) sender (uint256 a1) (ledger w) = Some (false, l) →
  uniswapV3SwapCallback sender a0 a1 data w
  = Revert (TransferTokenInFailed (token1 d) (payer w) (uint256 a1)).
Proof.
  intros Hd Hp Hpayer Ha0 Ha1 Ht. unfold uniswapV3SwapCallback. rewrite Hd.
  unfold bind, view, require, tload, ret, revert. rewrite Hp.
  rewrite !bool_decide_eq_true_2 by (assumption || reflexivity).
  rewrite bool_decide_eq_false_2 by lia.
  rewrite bool_decide_eq_true_2 by assumption.
  unfold payPool. rewrite Ht. reflexivity.
Qed.

(** A context whose assets are not in increasing order derives to no
    address: the derivation itself reverts, before any transfer. *)
Lemma callback_unordered_pair sender a0 a1 data d w :
  abi_decode data = Some d → token1 d ≤ token0 d →
  call (uniswapV3SwapCallback sender a0 a1 data) w
  = (Revert (Error "DexRouter: token0 must be < token1"), w).
Proof.
  intros Hd Hle. apply call_Revert. unfold uniswapV3SwapCallback. rewrite Hd.
  unfold bind at 1. unfold view, computePoolAddress.
  rewrite bool_decide_eq_false_2 by lia. reflexivity.
Qed.

End RouterFacts.

(** * The claims about the split solver *)

Section DpSolverClaims.
Import DpSolver.

Lemma sumZ_first (n : nat) (x : Z) :
  (1 ≤ n)%nat → sumZ (<[0%nat := x]> (replicate n 0)) = x.
Proof.
  destruct n as [|n]; [lia|]. intros _. simpl.
  assert (Hz : ∀ k, sumZ (replicate k 0) = 0).
  { intros k. induction k as [|k IH]; simpl; [done|]. by rewrite IH. }
  rewrite Hz. lia.
Qed.

(** For a matrix whose rows have [parts + 1] entries the returned
    distribution has one entry per venue and sums to [parts + 1]. *)
Lemma distribution_sum_quoteMatrix parts amounts :
  quoteMatrix (parts + 1) amounts →
  ∃ total d, findBestDistribution amounts = Return (Result total d) ∧
             length d = length amounts ∧ Forall (fun k => 0 ≤ k) d ∧
             sumZ d = Z.of_nat parts + 1.
Proof.
  intros Hq. pose proof (findBestDistribution_quoteMatrix _ _ Hq) as Hr.
  destruct Hq as [Hne _].
  assert (1 ≤ length amounts)%nat by (destruct amounts; [done|simpl; lia]).
  eexists _, _. split; [exact Hr|]. split; [|split].
  - by rewrite length_insert, length_replicate.
  - apply Forall_insert; [|lia]. apply Forall_replicate. lia.
  - rewrite sumZ_first by done. lia.
Qed.

(** The transition reads the previous row of [amounts], not of [answers],
    and tests every candidate against [amounts[p - 1][s]]: a later, smaller
    candidate replaces a better one. *)
Lemma transition_keeps_last_candidate :
  ans (answers (dpTables [[0; 10; 11]; [0; 5; 12]] 2 3)) 1 2 = Num 12 ∧
  maxOverSplits [[0; 10; 11]; [0; 5; 12]] 2 = Some 15.
Proof. split; vm_compute; reflexivity. Qed.

(** C1. On the documented matrix (three venues, three parts) the solver
    returns [undefined] as total and the distribution [4, 0, 0], whereas
    the maximum over all splits of the three parts is 370, which the
    documented example implementation returns together with [1, 1, 1]. *)
Theorem findBestDistribution_misses_optimum :
  findBestDistribution exampleAmounts = Return (Result Undefined [4; 0; 0]) ∧
  maxOverSplits exampleAmounts 3 = Some 370 ∧
  Reference.findBestDistribution 3 exampleAmounts = Return (Result (Num 370) [1; 1; 1]).
Proof. repeat split; vm_compute; reflexivity. Qed.

(** C3, the claim as stated: neither implementation returns a total of 350
    with distribution [0, 3, 0] on the documented matrix. *)
Lemma example_is_not_350 :
  findBestDistribution exampleAmounts ≠ Return (Result (Num 350) [0; 3; 0]) ∧
  Reference.findBestDistribution 3 exampleAmounts ≠ Return (Result (Num 350) [0; 3; 0]).
Proof. split; vm_compute; discriminate. Qed.

(** C3, amended. On the documented matrix with three parts the best split is
    [1, 1, 1] with output 370, and this is what the documented
    implementation returns; all three parts to the middle venue give 350. *)
Theorem example_best_split :
  maxOverSplits exampleAmounts 3 = Some 370 ∧
  splitOutput exampleAmounts [1; 1; 1]%nat = 370 ∧
  splitOutput exampleAmounts [0; 3; 0]%nat = 350 ∧
  Reference.findBestDistribution 3 exampleAmounts = Return (Result (Num 370) [1; 1; 1]).
Proof. repeat split; vm_compute; reflexivity. Qed.

(** C4. On the documented matrix, whose rows have 3 + 1 entries, the
    returned distribution has one entry per venue, all non-negative, but
    sums to 4. *)
Theorem distribution_sum_example :
  ∃ total d, findBestDistribution exampleAmounts = Return (Result total d) ∧
             length d = 3%nat ∧ Forall (fun k => 0 ≤ k) d ∧ sumZ d = 4.
Proof.
  exists Undefined, [4; 0; 0]. split; [vm_compute; reflexivity|].
  split; [reflexivity|]. split; [|reflexivity].
  repeat constructor; lia.
Qed.

(** C8. On [tieAmounts] the splits giving 1, 2 or 3 parts to the second
    venue all reach the maximum 350 at the state (1, 3). The solver's
    back-pointer there is 0 (all three parts to the second venue, the last
    candidate of the sweep), where the documented implementation keeps 2
    (one part, the first candidate); the solver returns [4, 0]. *)
Theorem tie_break_example :
  maxOverSplits tieAmounts 3 = Some 350 ∧
  splitOutput tieAmounts [2; 1]%nat = 350 ∧
  splitOutput tieAmounts [1; 2]%nat = 350 ∧
  splitOutput tieAmounts [0; 3]%nat = 350 ∧
  par (parents (dpTables tieAmounts 2 4)) 1 3 = 0%nat ∧
  par (parents (Reference.dpTables tieAmounts 2 3)) 1 3 = 2%nat ∧
  findBestDistribution tieAmounts = Return (Result Undefined [4; 0]) ∧
  Reference.findBestDistribution 3 tieAmounts = Return (Result (Num 350) [2; 1]).
Proof. repeat split; vm_compute; reflexivity. Qed.

Lemma quoteMatrix_snoc len amounts :
  quoteMatrix len amounts → quoteMatrix len (amounts ++ [replicate len 0]).
Proof.
  intros [Hne Hall]. split.
  - by destruct amounts.
  - apply Forall_app. split; [done|]. constructor; [|done]. apply length_replicate.
Qed.

(** C9. Appending to a quote matrix a venue whose entries are all 0 leaves
    the returned total as it was and extends the returned distribution by a
    0 for that venue. *)
Theorem zero_venue_appended len amounts :
  quoteMatrix len amounts →
  ∃ total d,
    findBestDistribution amounts = Return (Result total d) ∧
    findBestDistribution (amounts ++ [replicate len 0]) = Return (Result total (d ++ [0])).
Proof.
  intros Hq.
  pose proof (findBestDistribution_quoteMatrix _ _ Hq) as Hr.
  pose proof (findBestDistribution_quoteMatrix _ _ (quoteMatrix_snoc _ _ Hq)) as Hr'.
  eexists _, _. split; [exact Hr|]. rewrite Hr'. do 2 f_equal.
  destruct Hq as [Hne _]. destruct amounts as [|row0 rest]; [done|].
  rewrite length_app. simpl. f_equal.
  replace (length rest + 1)%nat with (S (length rest)) by lia.
  by rewrite replicate_S_end.
Qed.

Lemma zero_venue_appended_witness :
  ∃ total d,
    findBestDistribution exampleAmounts = Return (Result total d) ∧
    findBestDistribution (exampleAmounts ++ [replicate 4 0]) = Return (Result total (d ++ [0])).
Proof.
  apply (zero_venue_appended 4 exampleAmounts).
  split; [discriminate|]. repeat constructor.
Defined.

End DpSolverClaims.

(** * The claims about the router *)

Section RouterClaims.
Import Router.
Context {Ledger : Type} `{!Chain Ledger}.

(** C2. When, after the earlier legs went through, the payment callback of a
    leg reverts with [TransferTokenInFailed], the whole call of
    [aggregateSwap] reverts with that error and the state, ledger included,
    is the one before the call. *)
Theorem settlement_atomic sender now before r after minAmountOut deadline
        w total1 w1 token spender amount :
  now ≤ deadline →
  swapRoutes sender before 0 {| payer := sender; ledger := ledger w |} = Ok (total1, w1) →
  legCallback sender r w1 = Some (Revert (TransferTokenInFailed token spender amount)) →
  call (aggregateSwap sender now (before ++ r :: after) minAmountOut deadline) w
  = (Revert (TransferTokenInFailed token spender amount), w).
Proof.
  intros Hnow Hbefore Hcb. apply call_Revert. unfold aggregateSwap.
  rewrite bool_decide_eq_false_2 by lia.
  unfold bind at 1. unfold tstore at 1.
  apply bind_Revert. rewrite swapRoutes_app.
  rewrite (bind_step _ _ _ _ _ Hbefore). cbn [swapRoutes].
  apply bind_Revert. by apply legCallback_Revert.
Qed.

(** C5. A callback whose context derives to an address other than the
    caller's reverts with "invalid caller" and leaves the state as it
    was. *)
Theorem callback_rejects_other_caller caller amount0Delta amount1Delta data d expected w :
  abi_decode data = Some d →
  computePoolAddress (token0 d) (token1 d) (poolFee d) = Ok expected →
  expected ≠ caller →
  call (uniswapV3SwapCallback caller amount0Delta amount1Delta data) w
  = (Revert UntrustedCallback, w).
Proof.
  intros Hd Hp Hne. apply call_Revert. unfold uniswapV3SwapCallback. rewrite Hd.
  unfold bind at 1. unfold view. rewrite Hp.
  unfold bind at 1. unfold require. rewrite bool_decide_eq_false_2 by congruence.
  reflexivity.
Qed.

(** C6, amended. [aggregateSwap] never clears the payer slot itself: a
    reverted call leaves the state as it was, a successful call returns
    with the caller still bound in the slot, and the slot is emptied by the
    end of the transaction. *)
Theorem payer_binding_after_call sender now routes minAmountOut deadline w :
  match call (aggregateSwap sender now routes minAmountOut deadline) w with
  | (Ok _, w') => payer w' = sender ∧ payer (endTransaction w') = 0
  | (Revert _, w') => w' = w
  end.
Proof.
  unfold call.
  destruct (aggregateSwap sender now routes minAmountOut deadline w) as [[out w']|e] eqn:Hrun;
    [|done].
  split; [|done]. revert Hrun. unfold aggregateSwap. case_bool_decide; [done|].
  intros (u & w0 & Hstore & (total & w1 & Hloop & Hrest)%bind_Ok)%bind_Ok.
  unfold tstore in Hstore. injection Hstore as _ <-.
  apply swapRoutes_payer in Hloop.
  apply bind_Ok in Hrest as (u' & w2 & Hreq & Hret).
  unfold require, ret, revert in Hreq, Hret. case_bool_decide; [|done].
  injection Hreq as _ <-. injection Hret as _ <-. done.
Qed.

Lemma swapRoutes_total sender routes w :
  swapRoutes sender routes 0 w
  = bind (legOutputs sender routes) (fun outs => ret (uint256 (sumZ outs))) w.
Proof. apply (swapRoutes_sum sender routes 0 w). Qed.

(** C7, amended. A successful call of [aggregateSwap] hands back empty
    return data; the total it compared with [minAmountOut] is the sum of the
    amounts returned by the legs, reduced modulo 2^256. *)
Theorem aggregateSwap_returns_nothing sender now routes minAmountOut deadline w out w' :
  call (aggregateSwap sender now routes minAmountOut deadline) w = (Ok out, w') →
  out = [] ∧
  ∃ outs, legOutputs sender routes {| payer := sender; ledger := ledger w |} = Ok (outs, w') ∧
          minAmountOut ≤ uint256 (sumZ outs).
Proof.
  unfold call.
  destruct (aggregateSwap sender now routes minAmountOut deadline w) as [[out0 w0]|e] eqn:Hrun;
    [|done].
  intros [= -> ->]. revert Hrun. unfold aggregateSwap. case_bool_decide; [done|].
  intros (u & w0 & Hstore & (total & w1 & Hloop & Hrest)%bind_Ok)%bind_Ok.
  unfold tstore in Hstore. injection Hstore as _ <-.
  apply bind_Ok in Hrest as (u' & w2 & Hreq & Hret).
  unfold require, ret, revert in Hreq, Hret. case_bool_decide as Hmin; [|done].
  injection Hreq as _ <-. injection Hret as <- <-. split; [done|].
  rewrite swapRoutes_total in Hloop.
  apply bind_Ok in Hloop as (outs & w3 & Houts & Hsum).
  unfold ret in Hsum. injection Hsum as <- <-. eauto.
Qed.

(** C10. Called by the derived pool with a payer bound and no positive
    delta, the callback returns without error and without touching the
    state. *)
Theorem callback_without_positive_delta caller amount0Delta amount1Delta data d w :
  abi_decode data = Some d →
  computePoolAddress (token0 d) (token1 d) (poolFee d) = Ok caller →
  payer w ≠ 0 →
  amount0Delta ≤ 0 → amount1Delta ≤ 0 →
  call (uniswapV3SwapCallback caller amount0Delta amount1Delta data) w = (Ok tt, w).
Proof.
  intros Hd Hp Hpayer H0 H1. unfold call, uniswapV3SwapCallback. rewrite Hd.
  unfold bind, view, require, tload, ret. rewrite Hp.
  rewrite !bool_decide_eq_true_2 by (assumption || reflexivity).
  rewrite !bool_decide_eq_false_2 by lia. reflexivity.
Qed.

End RouterClaims.

(** * The router claims on the small chain *)

Section RouterRuns.
Import Router Scenario.

(** Alice holds 50 USDC: the first leg (30) is paid, the second (50) is
    refused by the ledger, and nothing of the first remains. *)
Lemma settlement_atomic_witness :
  call (aggregateSwap alice 10 ([leg 500 30] ++ leg 3000 50 :: [leg 10000 20]) 0 20) (world 50)
  = (Revert (TransferTokenInFailed USDC alice 50), world 50).
Proof.
  apply (settlement_atomic alice 10 [leg 500 30] (leg 3000 50) [leg 10000 20] 0 20
           (world 50) 60 afterFirstLeg USDC alice 50).
  - lia.
  - vm_compute. reflexivity.
  - vm_compute. reflexivity.
Defined.

(** The context of the 0.05% pool presented by another caller. *)
Lemma callback_rejects_other_caller_witness :
  call (uniswapV3SwapCallback 12345 30 (-60)
          (abi_encode {| token0 := USDC; token1 := WETH; poolFee := 500 |}))
       {| payer := alice; ledger := ledger (world 100) |}
  = (Revert UntrustedCallback, {| payer := alice; ledger := ledger (world 100) |}).
Proof.
  eapply (callback_rejects_other_caller 12345 30 (-60) _
            {| token0 := USDC; token1 := WETH; poolFee := 500 |} (poolAt 500)).
  - vm_compute. reflexivity.
  - vm_compute. reflexivity.
  - vm_compute. lia.
Defined.

(** C6, the claim as stated: after the successful call has returned, the
    payer slot still holds alice. *)
Lemma payer_still_bound_after_return :
  call (aggregateSwap alice 10 threeLegs 0 20) (world 100) = (Ok [], settled) ∧
  tload settled = Ok (alice, settled) ∧
  payer settled ≠ 0.
Proof.
  split; [vm_compute; reflexivity|]. split; [vm_compute; reflexivity|].
  vm_compute. lia.
Qed.

(** C7, the claim as stated: the three legs deliver 60, 100 and 40, and the
    successful call hands back no data, not their total. *)
Lemma aggregateSwap_total_not_returned :
  legOutputs alice threeLegs {| payer := alice; ledger := ledger (world 100) |}
  = Ok ([60; 100; 40], settled) ∧
  fst (call (aggregateSwap alice 10 threeLegs 0 20) (world 100)) = Ok [] ∧
  fst (call (aggregateSwap alice 10 threeLegs 0 20) (world 100)) ≠ Ok [sumZ [60; 100; 40]].
Proof.
  split; [vm_compute; reflexivity|]. split; [vm_compute; reflexivity|].
  vm_compute. discriminate.
Qed.

Lemma aggregateSwap_returns_nothing_witness :
  ([] : list Z) = [] ∧
  ∃ outs, legOutputs alice threeLegs {| payer := alice; ledger := ledger (world 100) |}
          = Ok (outs, settled) ∧
          150 ≤ uint256 (sumZ outs).
Proof.
  apply (aggregateSwap_returns_nothing alice 10 threeLegs 150 20 (world 100) [] settled).
  vm_compute. reflexivity.
Defined.

(** The 0.05% pool calling back with nothing owed. *)
Lemma callback_without_positive_delta_witness :
  call (uniswapV3SwapCallback (poolAt 500) 0 (-60)
          (abi_encode {| token0 := USDC; token1 := WETH; poolFee := 500 |}))
       {| payer := alice; ledger := ledger (world 100) |}
  = (Ok tt, {| payer := alice; ledger := ledger (world 100) |}).
Proof.
  eapply (callback_without_positive_delta (poolAt 500) 0 (-60) _
            {| token0 := USDC; token1 := WETH; poolFee := 500 |}).
  - vm_compute. reflexivity.
  - vm_compute. reflexivity.
  - vm_compute. lia.
  - lia.
  - lia.
Defined.

End RouterRuns.

(** * Further properties of the split solver *)

Section DpSolverInvariants.
Import DpSolver SolverSpec.

Lemma par_write2 p s v m p' s' :
  par (write2 p s v m) p' s' = par m p' s' ∨
  ((p, s) = (p', s') ∧ par (write2 p s v m) p' s' = v).
Proof.
  destruct (decide ((p, s) = (p', s'))) as [[= <- <-]|Hne].
  - unfold par, read2. rewrite row_write2_eq.
    destruct (m !! p) as [row|]; simpl; [|by left].
    destruct (decide (s < length row)%nat).
    + right. by rewrite list_lookup_insert_eq.
    + left. by rewrite list_insert_ge by lia.
  - left. unfold par. by rewrite read2_write2_ne.
Qed.

Lemma bounded_write2 p s v m : (v ≤ s)%nat → bounded m → bounded (write2 p s v m).
Proof.
  intros Hv Hm p' s'. destruct (par_write2 p s v m p' s') as [->|[[= <- <-] ->]]; [apply Hm|done].
Qed.

Lemma firstRowZero_write2 p s v m :
  p ≠ 0%nat ∨ v = 0%nat → firstRowZero m → firstRowZero (write2 p s v m).
Proof.
  intros Hpv Hm s'. destruct (par_write2 p s v m 0 s') as [->|[[= -> <-] ->]]; [apply Hm|].
  by destruct Hpv.
Qed.

Lemma fold_left_invariant {S B} (f : S → B → S) (I : S → Prop) (l : list B) (t : S) :
  (∀ t b, b ∈ l → I t → I (f t b)) → I t → I (fold_left f l t).
Proof.
  revert t. induction l as [|b l IH]; intros t Hf Ht; simpl; [done|].
  apply IH.
  - intros t' b' Hb'. apply Hf. by right.
  - apply Hf; [by left|done].
Qed.

Lemma allocate_parentsOk pools parts : parentsOk (allocate pools parts).
Proof.
  assert (H : ∀ p s, par (parents (allocate pools parts)) p s = 0%nat).
  { intros p s. unfold par, read2, allocate. simpl.
    destruct (replicate pools _ !! p) as [row|] eqn:Hrow; simpl; [|done].
    apply lookup_replicate in Hrow as [-> _].
    destruct (replicate _ _ !! s) as [x|] eqn:Hx; simpl; [|done].
    by apply lookup_replicate in Hx as [-> _]. }
  split; intros ?; [intros ?|]; rewrite H; lia.
Qed.

Lemma initColumn_parentsOk amounts pools t s :
  parentsOk t → parentsOk (initColumn amounts pools t s).
Proof.
  intros [Hb Hz]. unfold initColumn. split; simpl.
  - apply bounded_write2; [lia|done].
  - apply firstRowZero_write2; [by right|done].
Qed.

Lemma tryPart_parentsOk amounts p s t k :
  p ≠ 0%nat → parentsOk t → parentsOk (tryPart amounts p s t k).
Proof.
  intros Hp [Hb Hz]. unfold tryPart. case_match; [|done]. split; simpl.
  - apply bounded_write2; [lia|done].
  - apply firstRowZero_write2; [by left|done].
Qed.

Lemma fillCell_parentsOk amounts p t s :
  p ≠ 0%nat → parentsOk t → parentsOk (fillCell amounts p t s).
Proof.
  intros Hp [Hb Hz]. unfold fillCell. apply fold_left_invariant.
  - intros. by apply tryPart_parentsOk.
  - split; simpl.
    + apply bounded_write2; [lia|done].
    + apply firstRowZero_write2; [by left|done].
Qed.

Lemma dpTables_parentsOk amounts pools parts : parentsOk (dpTables amounts pools parts).
Proof.
  unfold dpTables. apply fold_left_invariant.
  - intros t p Hp%elem_of_seq Ht. unfold fillRow. apply fold_left_invariant; [|done].
    intros. apply fillCell_parentsOk; [lia|done].
  - apply fold_left_invariant; [|apply allocate_parentsOk].
    intros. by apply initColumn_parentsOk.
Qed.

Lemma sumZ_insert (d : list Z) p x y :
  d !! p = Some x → sumZ (<[p := y]> d) = sumZ d - x + y.
Proof.
  revert p. induction d as [|z d IH]; intros [|p] Hp; simplify_eq/=; [lia|].
  rewrite (IH p) by done. lia.
Qed.

(** The walk back hands out exactly the parts it starts with. *)
Lemma reconstruct_spec parents n partsLeft d :
  bounded parents → firstRowZero parents →
  (∀ i, (i < n)%nat → d !! i = Some 0) →
  (n = 0%nat → partsLeft = 0%nat) →
  Forall (fun k => 0 ≤ k) d →
  let d' := reconstruct parents n partsLeft d in
  length d' = length d ∧ Forall (fun k => 0 ≤ k) d' ∧ sumZ d' = sumZ d + Z.of_nat partsLeft.
Proof.
  intros Hb Hz. revert partsLeft d. induction n as [|p IH]; intros partsLeft d Hd Hn Hpos.
  - simpl. rewrite Hn by done. split; [done|]. split; [done|]. simpl. lia.
  - cbn [reconstruct]. case_bool_decide as Hleft.
    + pose proof (Hb p partsLeft) as Hle.
      destruct (IH (par parents p partsLeft)
                   (<[p := Z.of_nat partsLeft - Z.of_nat (par parents p partsLeft)]> d))
        as (Hlen & Hnn & Hsum).
      * intros i Hi. rewrite list_lookup_insert_ne by lia. apply Hd. lia.
      * intros ->. apply Hz.
      * apply Forall_insert; [done|lia].
      * split; [by rewrite Hlen, length_insert|]. split; [done|].
        rewrite Hsum, (sumZ_insert _ _ 0) by (apply Hd; lia). lia.
    + split; [done|]. split; [done|]. lia.
Qed.


(** X2. Whatever the matrix, as long as it has a first row: the returned
    distribution has one entry per pool, no negative entry, and sums to the
    length of that first row. *)
Theorem solver_distribution_shape amounts row0 :
  amounts !! 0%nat = Some row0 →
  ∃ total d,
    findBestDistribution amounts = Return (Result total d) ∧
    length d = length amounts ∧
    Forall (fun k => 0 ≤ k) d ∧
    sumZ d = Z.of_nat (length row0).
Proof.
  intros H0. unfold findBestDistribution. rewrite H0. eexists _, _. split; [done|].
  destruct (dpTables_parentsOk amounts (length amounts) (length row0)) as [Hb Hz].
  assert (Hlen : (1 ≤ length amounts)%nat) by (apply lookup_lt_Some in H0; lia).
  destruct (reconstruct_spec (parents (dpTables amounts (length amounts) (length row0)))
              (length amounts) (length row0) (replicate (length amounts) 0) Hb Hz)
    as (Hl & Hnn & Hsum).
  - intros i Hi. by apply lookup_replicate_2.
  - lia.
  - apply Forall_replicate. lia.
  - rewrite Hl, length_replicate. split; [done|]. split; [done|].
    rewrite Hsum. clear. induction (length amounts) as [|k IH]; simpl; lia.
Qed.

Lemma solver_distribution_shape_witness :
  ∃ total d,
    findBestDistribution [[0; 7]; [0; 1; 9; 4]; []] = Return (Result total d) ∧
    length d = 3%nat ∧ Forall (fun k => 0 ≤ k) d ∧ sumZ d = 2.
Proof. apply (solver_distribution_shape [[0; 7]; [0; 1; 9; 4]; []] [0; 7]). reflexivity. Defined.

(** X3. When no row is longer than the first, the solver returns
    [undefined] as total and gives as many parts as the first row has
    entries to the first pool, none to the others. *)
Theorem solver_all_to_first_pool amounts row0 :
  amounts !! 0%nat = Some row0 →
  (∀ q row, amounts !! q = Some row → (length row ≤ length row0)%nat) →
  findBestDistribution amounts
  = Return (Result Undefined
                   (<[0%nat := Z.of_nat (length row0)]> (replicate (length amounts) 0))).
Proof. intros H0 Hs. by apply findBestDistribution_short. Qed.

Lemma solver_all_to_first_pool_witness :
  findBestDistribution [[0; 5; 9]; [0; 8]; [0; 7; 20]]
  = Return (Result Undefined (<[0%nat := 3]> (replicate 3 0))).
Proof.
  apply (solver_all_to_first_pool [[0; 5; 9]; [0; 8]; [0; 7; 20]] [0; 5; 9]).
  - reflexivity.
  - intros [|[|[|q]]] row [= <-]; simpl; lia.
Defined.

End DpSolverInvariants.

(** * The documented implementation computes the optimum *)

Section ReferenceFacts.
Import DpSolver SolverSpec.

Lemma maxUpTo_ub f j k : (k ≤ j)%nat → f k ≤ maxUpTo f j.
Proof.
  induction j as [|j IH]; intros Hk; simpl.
  - replace k with 0%nat by lia. lia.
  - destruct (decide (k = S j)) as [->|]; [lia|].
    etrans; [apply IH; lia|lia].
Qed.

Lemma maxUpTo_attained f j : ∃ k, (k ≤ j)%nat ∧ maxUpTo f j = f k.
Proof.
  induction j as [|j (k & Hk & IH)]; simpl; [by exists 0%nat|].
  destruct (Z.max_spec (maxUpTo f j) (f (S j))) as [[_ ->]|[_ ->]].
  - exists (S j). split; [lia|done].
  - exists k. split; [lia|done].
Qed.

Lemma maxUpTo_unique f j v :
  (∀ k, (k ≤ j)%nat → f k ≤ v) → (∃ k, (k ≤ j)%nat ∧ v = f k) → v = maxUpTo f j.
Proof.
  intros Hub (k & Hk & ->). destruct (maxUpTo_attained f j) as (k' & Hk' & Heq).
  pose proof (maxUpTo_ub f j k Hk). pose proof (Hub k' Hk'). lia.
Qed.

Lemma cellOnly_refl p s t : cellOnly p s t t.
Proof. by intros p' s' _. Qed.

Lemma cellOnly_trans p s t1 t2 t3 : cellOnly p s t1 t2 → cellOnly p s t2 t3 → cellOnly p s t1 t3.
Proof.
  intros H12 H23 p' s' Hne. destruct (H12 p' s' Hne) as [<- <-]. by apply H23.
Qed.

Lemma cellOnly_write p s v w t :
  cellOnly p s t (Tables (write2 p s v (answers t)) (write2 p s w (parents t))).
Proof. intros p' s' Hne. simpl. by rewrite !read2_write2_ne. Qed.

Lemma rowOnly_refl p from t : rowOnly p from t t.
Proof. by intros p' s' _. Qed.

Lemma rowOnly_trans p from t1 t2 t3 :
  rowOnly p from t1 t2 → rowOnly p from t2 t3 → rowOnly p from t1 t3.
Proof.
  intros H12 H23 p' s' Hne. destruct (H12 p' s' Hne) as [<- <-]. by apply H23.
Qed.

Lemma cellOnly_rowOnly p s from t t' : (from ≤ s)%nat → cellOnly p s t t' → rowOnly p from t t'.
Proof.
  intros Hs H p' s' Hne. apply H. intros [= -> ->]. lia.
Qed.

Lemma rowOnly_weaken p from from' t t' :
  (from' ≤ from)%nat → rowOnly p from t t' → rowOnly p from' t t'.
Proof. intros Hle H p' s' Hne. apply H. lia. Qed.

Lemma ans_written pools parts t p s v w :
  shaped pools parts t → (p < pools)%nat → (s ≤ parts)%nat →
  ans (answers (Tables (write2 p s v (answers t)) (write2 p s w (parents t)))) p s = v ∧
  par (parents (Tables (write2 p s v (answers t)) (write2 p s w (parents t)))) p s = w.
Proof.
  intros [Ha Hp] Hlt Hs.
  destruct (dims_row _ _ _ p Ha Hlt) as (ra & Hra & Hla).
  destruct (dims_row _ _ _ p Hp Hlt) as (rp & Hrp & Hlp).
  unfold ans, par. simpl.
  by rewrite (read2_write2_eq _ _ _ _ ra), (read2_write2_eq _ _ _ _ rp) by (done || lia).
Qed.

Lemma amt_cell amounts i k row :
  amounts !! i = Some row → (k < length row)%nat → amt amounts i k = Num (cell amounts i k).
Proof.
  intros Hrow Hk. unfold amt, cell, read2. rewrite Hrow. simpl.
  destruct (lookup_lt_is_Some_2 row k Hk) as [z ->]. done.
Qed.

Lemma splitOutput_app am1 am2 d1 d2 :
  length am1 = length d1 →
  splitOutput (am1 ++ am2) (d1 ++ d2) = splitOutput am1 d1 + splitOutput am2 d2.
Proof.
  revert d1. induction am1 as [|row am1 IH]; intros [|k d1] Hl; simplify_eq/=; [done|].
  rewrite IH by done. lia.
Qed.

Lemma splitOutput_snoc amounts i row d k :
  amounts !! i = Some row → length d = i →
  splitOutput (take (S i) amounts) (d ++ [k])
  = splitOutput (take i amounts) d + cell amounts i k.
Proof.
  intros Hrow Hd. rewrite (take_S_r _ _ _ Hrow), splitOutput_app.
  - unfold cell, read2. rewrite Hrow. simpl. lia.
  - rewrite length_take. apply lookup_lt_Some in Hrow. lia.
Qed.

Lemma list_snoc_inv {A} (d : list A) i :
  length d = S i → ∃ d0 k, d = d0 ++ [k] ∧ length d0 = i.
Proof.
  destruct d as [|x d] using rev_ind; [done|].
  rewrite length_app. simpl. intros Hl. exists d, x. split; [done|lia].
Qed.

Lemma take_zeros (d : list nat) m :
  (m ≤ length d)%nat → (∀ i, (i < m)%nat → d !! i = Some 0%nat) → take m d = replicate m 0%nat.
Proof.
  intros Hm Hz. apply list_eq. intros i. destruct (decide (i < m)%nat).
  - rewrite lookup_take_lt, Hz by done. symmetry. by apply lookup_replicate_2.
  - rewrite lookup_take_ge by lia. symmetry. apply lookup_replicate_None. lia.
Qed.

Lemma sum_list_zeros m : sum_list (replicate m 0%nat) = 0%nat.
Proof. induction m; simpl; lia. Qed.

Section Cell.
Context (amounts : list (list Z)) (n s : nat).
Hypothesis Hlen : n = length amounts.
Hypothesis Hq : quotesFor s amounts.

Lemma quotes_amt i k : (i < n)%nat → (k ≤ s)%nat → amt amounts i k = Num (cell amounts i k).
Proof.
  intros Hi Hk. destruct Hq as (_ & Hrows & _).
  destruct (lookup_lt_is_Some_2 amounts i) as [row Hrow]; [lia|].
  apply (amt_cell _ _ _ row Hrow). specialize (Hrows i row Hrow). lia.
Qed.

(** The sweep over [k] at one cell. *)
Lemma ref_sweep i' j t m :
  shaped n s t → (S i' < n)%nat → (j ≤ s)%nat → (m ≤ j)%nat →
  (∀ j', (j' ≤ s)%nat → ans (answers t) i' j' = Num (best amounts i' j')) →
  let F := fun k => best amounts i' (j - k) + cell amounts (S i') k in
  let t0 := Tables (write2 (S i') j (ans (answers t) i' j) (answers t))
                   (write2 (S i') j j (parents t)) in
  let tm := fold_left (Reference.tryPart amounts (S i') j) (seq 1 m) t0 in
  shaped n s tm ∧ cellOnly (S i') j t tm ∧
  ∃ v q, ans (answers tm) (S i') j = Num v ∧ par (parents tm) (S i') j = q ∧
         (q ≤ j)%nat ∧ (j - q ≤ m)%nat ∧ v = F (j - q)%nat ∧
         (∀ k, (k ≤ m)%nat → F k ≤ v) ∧ (∀ k, (k < j - q)%nat → F k < v).
Proof.
  intros Ht Hi Hj Hm Hprev F t0. induction m as [|m IH].
  - intros tm. subst tm. cbn [seq fold_left].
    split; [by apply shaped_cell|]. split; [apply cellOnly_write|].
    destruct (ans_written n s t (S i') j (ans (answers t) i' j) j Ht Hi Hj) as [Ha Hp].
    exists (best amounts i' j), j. subst t0.
    rewrite Ha, Hp, Hprev by done.
    assert (HF0 : F 0%nat = best amounts i' j).
    { unfold F. destruct Hq as (_ & _ & Hz). rewrite Hz by lia.
      rewrite Nat.sub_0_r. lia. }
    split; [done|]. split; [done|]. split; [lia|]. split; [lia|].
    replace (j - j)%nat with 0%nat by lia. split; [done|]. split.
    + intros k Hk. replace k with 0%nat by lia. lia.
    + intros k Hk. lia.
  - intros tm. subst tm. rewrite seq_S, fold_left_app. cbn [fold_left Nat.add].
    destruct IH as (Hsh & Hco & v & q & Hv & Hpq & Hqj & Hjq & HvF & Hub & Hlt); [lia|].
    set (tm := fold_left (Reference.tryPart amounts (S i') j) (seq 1 m) t0) in *.
    unfold Reference.tryPart.
    replace (S i' - 1)%nat with i' by lia.
    assert (Hprev' : ans (answers tm) i' (j - S m) = Num (best amounts i' (j - S m))).
    { unfold ans. destruct (Hco i' (j - S m)%nat) as [-> _]; [intros [= ? ?]; lia|].
      apply Hprev. lia. }
    rewrite Hprev', (quotes_amt (S i') (S m)), Hv by lia. simpl.
    fold (F (S m)). case_bool_decide as Hgt.
    + split; [by apply shaped_cell|]. split.
      { eapply cellOnly_trans; [done|apply cellOnly_write]. }
      destruct (ans_written n s tm (S i') j (Num (F (S m))) (j - S m)%nat Hsh Hi Hj) as [Ha Hp].
      exists (F (S m)), (j - S m)%nat. rewrite Ha, Hp.
      replace (j - (j - S m))%nat with (S m) by lia.
      split; [done|]. split; [done|]. split; [lia|]. split; [lia|]. split; [done|]. split.
      * intros k Hk. destruct (decide (k = S m)) as [->|]; [lia|].
        specialize (Hub k). lia.
      * intros k Hk. specialize (Hub k). lia.
    + split; [done|]. split; [done|].
      exists v, q. split; [done|]. split; [done|]. split; [done|]. split; [lia|].
      split; [done|]. split; [|done].
      intros k Hk. destruct (decide (k = S m)) as [->|]; [lia|]. apply Hub. lia.
Qed.

Lemma ref_fillCell i' j t :
  shaped n s t → (S i' < n)%nat → (j ≤ s)%nat →
  (∀ j', (j' ≤ s)%nat → ans (answers t) i' j' = Num (best amounts i' j')) →
  let t' := Reference.fillCell amounts (S i') t j in
  shaped n s t' ∧ cellOnly (S i') j t t' ∧ cellOk amounts t' (S i') j.
Proof.
  intros Ht Hi Hj Hprev. unfold Reference.fillCell.
  replace (S i' - 1)%nat with i' by lia.
  destruct (ref_sweep i' j t j Ht Hi Hj (Nat.le_refl j) Hprev)
    as (Hsh & Hco & v & q & Hv & Hpq & Hqj & _ & HvF & Hub & Hlt).
  split; [done|]. split; [done|].
  assert (Hbest : v = best amounts (S i') j).
  { cbn [best]. apply maxUpTo_unique; [done|]. exists (j - q)%nat. split; [lia|done]. }
  unfold cellOk. rewrite Hv, Hpq, <- Hbest. split; [done|]. split; [done|]. split; [|done].
  rewrite HvF. by replace (j - (j - q))%nat with q by lia.
Qed.

Lemma cellOk_same t t' i j :
  read2 (answers t') i j = read2 (answers t) i j →
  read2 (parents t') i j = read2 (parents t) i j →
  cellOk amounts t i j → cellOk amounts t' i j.
Proof. unfold cellOk, ans, par. by intros -> ->. Qed.

Lemma ref_fillRow i' t m :
  shaped n s t → (S i' < n)%nat → (m ≤ s + 1)%nat →
  (∀ j', (j' ≤ s)%nat → ans (answers t) i' j' = Num (best amounts i' j')) →
  let t' := fold_left (Reference.fillCell amounts (S i')) (seq 0 m) t in
  shaped n s t' ∧ rowOnly (S i') 0 t t' ∧ ∀ j, (j < m)%nat → cellOk amounts t' (S i') j.
Proof.
  intros Ht Hi Hm Hprev. induction m as [|m IH].
  - simpl. split; [done|]. split; [apply rowOnly_refl|]. intros j Hj. lia.
  - intros t'. subst t'. rewrite seq_S, fold_left_app. cbn [fold_left Nat.add].
    destruct IH as (Hsh & Hro & Hcells); [lia|].
    set (tm := fold_left (Reference.fillCell amounts (S i')) (seq 0 m) t) in *.
    destruct (ref_fillCell i' m tm Hsh Hi) as (Hsh' & Hco & Hcell); [lia| |].
    { intros j' Hj'. unfold ans. destruct (Hro i' j') as [-> _]; [left; lia|].
      by apply Hprev. }
    split; [done|]. split.
    { eapply rowOnly_trans; [done|]. apply (cellOnly_rowOnly _ m); [lia|done]. }
    intros j Hj. destruct (decide (j = m)) as [->|Hne]; [done|].
    destruct (Hco (S i') j) as [Ha Hp]; [intros [= ?]; lia|].
    apply (cellOk_same tm); [done..|]. apply Hcells. lia.
Qed.

Lemma ref_clear_dims j v (l : list nat) (a : list (list jsval)) :
  dims (fold_left (fun a i => write2 i j v a) l a) = dims a.
Proof.
  revert a. induction l as [|i l IH]; intros a; simpl; [done|].
  by rewrite IH, dims_write2.
Qed.

Lemma ref_clear_read j v (l : list nat) (a : list (list jsval)) p' s' :
  p' ∉ l ∨ s' ≠ j →
  read2 (fold_left (fun a i => write2 i j v a) l a) p' s' = read2 a p' s'.
Proof.
  revert a. induction l as [|i l IH]; intros a Hne; simpl; [done|].
  rewrite IH.
  - apply read2_write2_ne. intros [= -> ->]. destruct Hne as [Hne|Hne]; [|done].
    apply Hne. by left.
  - destruct Hne as [Hne|Hne]; [left|by right]. intros Hin. apply Hne. by right.
Qed.

Lemma ref_allocate_shaped : shaped n s (Reference.allocate n s).
Proof.
  unfold shaped, Reference.allocate, dims. simpl.
  by rewrite !fmap_replicate, !length_replicate.
Qed.

Lemma ref_allocate_par p j : par (parents (Reference.allocate n s)) p j = 0%nat.
Proof.
  unfold par, read2, Reference.allocate. simpl.
  destruct (replicate n _ !! p) as [row|] eqn:Hrow; simpl; [|done].
  apply lookup_replicate in Hrow as [-> _].
  destruct (replicate _ _ !! j) as [x|] eqn:Hx; simpl; [|done].
  by apply lookup_replicate in Hx as [-> _].
Qed.

(** After the first phase the first row holds [amounts[0]]. *)
Lemma ref_init m :
  (1 ≤ n)%nat → (m ≤ s + 1)%nat →
  let t := fold_left (Reference.initColumn amounts n) (seq 0 m) (Reference.allocate n s) in
  shaped n s t ∧ firstRowZero (parents t) ∧
  ∀ j, (j < m)%nat → ans (answers t) 0 j = Num (cell amounts 0 j).
Proof.
  intros Hn Hm. induction m as [|m IH].
  - simpl. split; [apply ref_allocate_shaped|]. split; [|intros; lia].
    intros j. apply ref_allocate_par.
  - intros t. subst t. rewrite seq_S, fold_left_app. cbn [fold_left Nat.add].
    destruct IH as (Hsh & Hz & Hcells); [lia|].
    set (tm := fold_left (Reference.initColumn amounts n) (seq 0 m) _) in *.
    unfold Reference.initColumn. split; [|split].
    + destruct Hsh as [Ha Hp]. split; simpl.
      * by rewrite ref_clear_dims, dims_write2.
      * by rewrite dims_write2.
    + simpl. apply firstRowZero_write2; [by right|done].
    + intros j Hj. unfold ans. simpl. rewrite ref_clear_read.
      2:{ left. intros Hin%elem_of_seq. lia. }
      destruct (decide (j = m)) as [->|Hne].
      * destruct Hsh as [Ha _].
        destruct (dims_row _ _ _ 0%nat Ha) as (ra & Hra & Hla); [lia|].
        rewrite (read2_write2_eq _ _ _ _ ra) by (done || lia). simpl.
        apply quotes_amt; lia.
      * rewrite read2_write2_ne by (intros [= ?]; lia). apply Hcells. lia.
Qed.

(** After the rows [1 .. k] every cell of the rows [0 .. k] is right. *)
Lemma ref_fill k :
  (k < n)%nat →
  let t := fold_left (Reference.fillRow amounts s) (seq 1 k)
             (fold_left (Reference.initColumn amounts n) (seq 0 (s + 1))
                        (Reference.allocate n s)) in
  shaped n s t ∧ ∀ i j, (i ≤ k)%nat → (j ≤ s)%nat → cellOk amounts t i j.
Proof.
  induction k as [|k IH]; intros Hk.
  - destruct (ref_init (s + 1)) as (Hsh & Hz & Hcells); [lia..|].
    simpl. split; [done|]. intros i j Hi Hj. replace i with 0%nat by lia.
    split; [apply Hcells; lia|apply Hz].
  - intros t. subst t. rewrite seq_S, fold_left_app. cbn [fold_left Nat.add].
    destruct IH as (Hsh & Hcells); [lia|].
    set (tk := fold_left (Reference.fillRow amounts s) (seq 1 k) _) in *.
    destruct (ref_fillRow k tk (s + 1) Hsh) as (Hsh' & Hro & Hrow); [lia..| |].
    { intros j' Hj'. by apply Hcells. }
    split; [done|]. intros i j Hi Hj. destruct (decide (i = S k)) as [->|Hne].
    + apply Hrow. lia.
    + destruct (Hro i j) as [Ha Hp]; [left; lia|].
      apply (cellOk_same tk); [done..|]. apply Hcells; lia.
Qed.

Lemma ref_tables i j :
  (i < n)%nat → (j ≤ s)%nat → cellOk amounts (Reference.dpTables amounts n s) i j.
Proof.
  intros Hi Hj. unfold Reference.dpTables.
  destruct (ref_fill (n - 1)) as [_ Hcells]; [lia|]. apply Hcells; lia.
Qed.

Lemma best_zero i : best amounts i 0 = cell amounts 0 0.
Proof.
  induction i as [|i IH]; [done|]. cbn [best maxUpTo]. rewrite Nat.sub_0_r, IH.
  destruct Hq as (_ & _ & Hz). rewrite (Hz (S i)) by lia. lia.
Qed.

Lemma splitOutput_zeros m :
  (m ≤ n)%nat →
  splitOutput (take m amounts) (replicate m 0%nat)
  = match m with O => 0 | S _ => cell amounts 0 0 end.
Proof.
  induction m as [|m IH]; intros Hm; [done|].
  destruct (lookup_lt_is_Some_2 amounts m) as [row Hrow]; [lia|].
  rewrite replicate_S_end, (splitOutput_snoc _ _ row) by (done || apply length_replicate).
  rewrite IH by lia. destruct m as [|m']; [simpl; lia|].
  destruct Hq as (_ & _ & Hz). rewrite (Hz (S m')) by lia. lia.
Qed.

(** No split of [j] parts among the venues [0 .. i] beats [best]. *)
Lemma best_ub i j d :
  (i < n)%nat → length d = S i → sum_list d = j →
  splitOutput (take (S i) amounts) d ≤ best amounts i j.
Proof.
  revert j d. induction i as [|i IH]; intros j d Hi Hd Hsum.
  - destruct d as [|k [|]]; simplify_eq/=.
    destruct (lookup_lt_is_Some_2 amounts 0) as [row Hrow]; [lia|].
    rewrite (splitOutput_snoc _ 0 row [] k) by done. simpl.
    replace (k + 0)%nat with k by lia. lia.
  - destruct (list_snoc_inv d (S i) Hd) as (d0 & k & -> & Hd0).
    destruct (lookup_lt_is_Some_2 amounts (S i)) as [row Hrow]; [lia|].
    rewrite (splitOutput_snoc _ _ row) by done.
    rewrite sum_list_with_app in Hsum. simpl in Hsum.
    specialize (IH (sum_list d0) d0). cbn [best].
    pose proof (maxUpTo_ub
      (fun k => best amounts i (j - k) + cell amounts (S i) k) j k) as Hub.
    cbv beta in Hub. replace (j - k)%nat with (sum_list d0) in Hub by lia.
    etrans; [|apply Hub; lia]. apply Z.add_le_mono_r. apply IH; [lia|done..].
Qed.

Section Walk.
Context (t : tables).
Hypothesis Hcells : ∀ i j, (i < n)%nat → (j ≤ s)%nat → cellOk amounts t i j.

Lemma ref_reconstruct m left dn :
  (m ≤ n)%nat → (left ≤ s)%nat → length dn = n →
  (∀ i, (i < m)%nat → dn !! i = Some 0%nat) →
  (m = 0%nat → left = 0%nat) →
  ∃ dn', reconstruct (parents t) m left (Z.of_nat <$> dn) = Z.of_nat <$> dn' ∧
         length dn' = n ∧
         (∀ i, (m ≤ i)%nat → dn' !! i = dn !! i) ∧
         sum_list (take m dn') = left ∧
         ∀ i, (i < m)%nat → levelOk amounts s t dn' i.
Proof.
  revert left dn. induction m as [|p IH]; intros left dn Hm Hleft Hdn Hz H0.
  - exists dn. rewrite H0 by done. repeat split; try done. intros i Hi. lia.
  - cbn [reconstruct]. case_bool_decide as Hpos.
    + set (rest := par (parents t) p left).
      assert (Hrest : (rest ≤ left)%nat ∧ (p = 0%nat → rest = 0%nat)).
      { specialize (Hcells p left). unfold cellOk in Hcells. fold rest in Hcells.
        destruct p; [destruct Hcells as [_ ->]; [lia..|]; lia|].
        destruct Hcells as (_ & ? & _); [lia..|]. split; [done|lia]. }
      destruct Hrest as [Hrest Hrest0].
      replace (Z.of_nat left - Z.of_nat rest) with (Z.of_nat (left - rest)) by lia.
      rewrite <- list_fmap_insert.
      destruct (IH rest (<[p := (left - rest)%nat]> dn)) as (dn' & Heq & Hlen' & Hag & Hsum & Hlev).
      * lia.
      * lia.
      * by rewrite length_insert.
      * intros i Hi. rewrite list_lookup_insert_ne by lia. apply Hz. lia.
      * done.
      * assert (Hp : dn' !! p = Some (left - rest)%nat).
        { rewrite Hag by lia. apply list_lookup_insert_eq. lia. }
        assert (Hsum' : sum_list (take (S p) dn') = left).
        { rewrite (take_S_r _ _ _ Hp), sum_list_with_app, Hsum. simpl. lia. }
        exists dn'. split; [done|]. split; [done|]. split.
        { intros i Hi. rewrite Hag by lia. apply list_lookup_insert_ne. lia. }
        split; [done|]. intros i Hi. destruct (decide (i = p)) as [->|Hne]; [|apply Hlev; lia].
        exists left. split; [done|]. split; [done|]. split; [|by right].
        destruct (lookup_lt_is_Some_2 amounts p) as [row Hrow]; [lia|].
        rewrite (take_S_r _ _ _ Hp), (splitOutput_snoc _ _ row).
        2: done.
        2:{ rewrite length_take. lia. }
        specialize (Hcells p left). unfold cellOk in Hcells. fold rest in Hcells.
        destruct p as [|p'].
        -- simpl. rewrite Hrest0 by done. rewrite Nat.sub_0_r. lia.
        -- destruct Hcells as (_ & _ & -> & _); [lia..|].
           destruct (Hlev p') as (L & _ & HL & Hval & _); [lia|].
           rewrite Hsum in HL. subst L. rewrite Hval. lia.
    + assert (left = 0%nat) as -> by lia.
      exists dn. split; [done|]. split; [done|]. split; [done|].
      assert (Htake : ∀ i, (i ≤ S p)%nat → take i dn = replicate i 0%nat).
      { intros i Hi. apply take_zeros; [lia|]. intros i' Hi'. apply Hz. lia. }
      split; [by rewrite Htake, sum_list_zeros|].
      intros i Hi. exists 0%nat. split; [lia|].
      rewrite Htake, sum_list_zeros by lia. split; [done|]. split; [|left; apply Hz; lia].
      rewrite splitOutput_zeros by lia. by rewrite best_zero.
Qed.

End Walk.

End Cell.

Lemma ref_dpTables_parentsOk amounts n s : parentsOk (Reference.dpTables amounts n s).
Proof.
  unfold Reference.dpTables. apply fold_left_invariant.
  - intros t i Hi%elem_of_seq Ht. unfold Reference.fillRow.
    apply fold_left_invariant; [|done].
    intros t' j _ [Hb Hz]. unfold Reference.fillCell. apply fold_left_invariant.
    + intros t'' k _ [Hb' Hz']. unfold Reference.tryPart. case_match; [|done]. split; simpl.
      * apply bounded_write2; [lia|done].
      * apply firstRowZero_write2; [left; lia|done].
    + split; simpl.
      * apply bounded_write2; [lia|done].
      * apply firstRowZero_write2; [left; lia|done].
  - apply fold_left_invariant.
    + intros t j _ [Hb Hz]. unfold Reference.initColumn. split; simpl.
      * apply bounded_write2; [lia|done].
      * apply firstRowZero_write2; [by right|done].
    + split; intros ?; [intros ?|]; rewrite ref_allocate_par; lia.
Qed.

(** X6. Whatever the entries and the row lengths of a non-empty matrix, the
    documented implementation returns one entry per venue, none negative,
    summing to the number of parts it was asked to split. *)
Theorem reference_distribution_shape s amounts :
  amounts ≠ [] →
  ∃ total d,
    Reference.findBestDistribution s amounts = Return (Result total d) ∧
    length d = length amounts ∧
    Forall (fun k => 0 ≤ k) d ∧
    sumZ d = Z.of_nat s.
Proof.
  intros Hne.
  assert (Hn : (1 ≤ length amounts)%nat) by (destruct amounts; [done|simpl; lia]).
  unfold Reference.findBestDistribution. rewrite bool_decide_eq_false_2 by lia.
  eexists _, _. split; [done|].
  destruct (ref_dpTables_parentsOk amounts (length amounts) s) as [Hb Hz].
  destruct (reconstruct_spec (parents (Reference.dpTables amounts (length amounts) s))
              (length amounts) s (replicate (length amounts) 0) Hb Hz)
    as (Hl & Hnn & Hsum).
  - intros i Hi. by apply lookup_replicate_2.
  - lia.
  - apply Forall_replicate. lia.
  - rewrite Hl, length_replicate. split; [done|]. split; [done|].
    rewrite Hsum. clear. induction (length amounts) as [|k IH]; simpl; lia.
Qed.

Lemma reference_distribution_shape_witness :
  ∃ total d,
    Reference.findBestDistribution 5 [[0; 7]; []; [3; 1; 9; 4]] = Return (Result total d) ∧
    length d = 3%nat ∧ Forall (fun k => 0 ≤ k) d ∧ sumZ d = 5.
Proof. apply (reference_distribution_shape 5 [[0; 7]; []; [3; 1; 9; 4]]). discriminate. Defined.

(** Everything the documented implementation returns, in one statement. *)
Lemma reference_result s amounts :
  quotesFor s amounts →
  ∃ d : list nat,
    Reference.findBestDistribution s amounts
    = Return (Result (if bool_decide (splitOutput amounts d = Reference.VERY_NEGATIVE_VALUE)
                      then Num 0 else Num (splitOutput amounts d))
                     (Z.of_nat <$> d)) ∧
    isSplit (length amounts) s d ∧
    splitOutput amounts d = best amounts (length amounts - 1) s ∧
    ∀ i, (i < length amounts)%nat →
         levelOk amounts s (Reference.dpTables amounts (length amounts) s) d i.
Proof.
  intros Hq. pose proof Hq as (Hne & _ & _).
  set (n := length amounts).
  assert (Hn : (1 ≤ n)%nat) by (subst n; destruct amounts; [done|simpl; lia]).
  pose proof (ref_tables amounts n s eq_refl Hq) as Hcells.
  destruct (ref_reconstruct amounts n s eq_refl Hq _ Hcells n s (replicate n 0%nat))
    as (d & Heq & Hlen & _ & Hsum & Hlev).
  { done. } { done. } { apply length_replicate. }
  { intros i Hi. by apply lookup_replicate_2. } { lia. }
  rewrite take_ge in Hsum by lia.
  destruct (Hlev (n - 1)%nat) as (L & _ & HL & Hval & _); [lia|].
  replace (S (n - 1)) with n in HL, Hval by lia.
  rewrite (take_ge d) in HL, Hval by lia.
  rewrite (take_ge amounts) in Hval by (unfold n; lia). rewrite Hsum in HL. subst L.
  exists d. split; [|split; [by split|split; [done|done]]].
  unfold Reference.findBestDistribution. fold n.
  rewrite bool_decide_eq_false_2 by lia.
  rewrite fmap_replicate in Heq. change (Z.of_nat 0) with 0 in Heq. rewrite Heq.
  destruct (Hcells (n - 1)%nat s) as [-> _]; [lia..|].
  rewrite Hval. do 2 f_equal. repeat case_bool_decide; congruence.
Qed.


Lemma exampleAmounts_quotes : quotesFor 3 exampleAmounts.
Proof.
  split; [discriminate|]. split.
  - intros [|[|[|i]]] row [= <-]; simpl; lia.
  - intros [|[|[|i]]] Hi; done.
Qed.




End ReferenceFacts.

(** * Further properties of the router *)

Section RouterExtras.
Import Router.
Context {Ledger : Type} `{!Chain Ledger}.

(** *** Encoding of the callback data *)

Lemma length_be_bytes n z : length (be_bytes n z) = n.
Proof.
  revert z. induction n as [|n IH]; intros z; simpl; [done|].
  rewrite length_app, IH. simpl. lia.
Qed.

Lemma from_be_snoc bs b : from_be (bs ++ [b]) = from_be bs * 256 + b.
Proof. unfold from_be. by rewrite fold_left_app. Qed.

Lemma from_be_bytes n z : from_be (be_bytes n z) = z mod 256 ^ Z.of_nat n.
Proof.
  revert z. induction n as [|n IH]; intros z.
  - simpl. by rewrite Z.mod_1_r.
  - cbn [be_bytes]. rewrite from_be_snoc, IH.
    rewrite Nat2Z.inj_succ, Z.pow_succ_r by lia.
    rewrite (Z.rem_mul_r z 256 (256 ^ Z.of_nat n)) by lia. lia.
Qed.

Lemma from_be_bytes32 z : 0 ≤ z < 2 ^ 256 → from_be (be_bytes 32 z) = z.
Proof.
  intros Hz. rewrite from_be_bytes.
  change (256 ^ Z.of_nat 32) with (2 ^ 256). by apply Z.mod_small.
Qed.

(** Decoding what [abi.encode] produced for a callback context gives the
    context back, for fields within the range of their Solidity types. *)
Lemma abi_decode_encode d :
  0 ≤ token0 d < 2 ^ 160 → 0 ≤ token1 d < 2 ^ 160 → 0 ≤ poolFee d < 2 ^ 24 →
  abi_decode (abi_encode d) = Some d.
Proof.
  intros H0 H1 Hf. destruct d as [t0 t1 f]. simpl in *.
  unfold abi_decode, abi_encode, abi_encode3. cbn [token0 token1 poolFee].
  rewrite bool_decide_eq_false_2.
  2:{ rewrite !length_app, !length_be_bytes. lia. }
  rewrite take_app_length' by (by rewrite length_be_bytes).
  rewrite (drop_app_length' _ _ 32) by (by rewrite length_be_bytes).
  rewrite take_app_length' by (by rewrite length_be_bytes).
  replace 64%nat with (32 + 32)%nat by done.
  rewrite <- drop_drop, (drop_app_length' _ _ 32) by (by rewrite length_be_bytes).
  rewrite (drop_app_length' _ _ 32) by (by rewrite length_be_bytes).
  rewrite firstn_all2 by (rewrite length_be_bytes; lia).
  assert (2 ^ 160 < 2 ^ 256) by (apply Z.pow_lt_mono_r; lia).
  assert (2 ^ 24 < 2 ^ 256) by (apply Z.pow_lt_mono_r; lia).
  rewrite !from_be_bytes32 by lia.
  rewrite bool_decide_eq_true_2 by lia. done.
Qed.

(** *** The entry point in terms of its legs *)

(** X7. The outcome of a call of [aggregateSwap] is fixed by the deadline
    test and by the run of the legs: a passed deadline or a failing leg
    reverts the call with that error, a total below [minAmountOut] reverts
    it with the slippage message, and only otherwise do the legs' effects
    stay. *)
Theorem aggregateSwap_outcome sender now routes minAmountOut deadline w :
  call (aggregateSwap sender now routes minAmountOut deadline) w
  = if bool_decide (deadline < now) then (Revert (DeadlinePassed deadline), w)
    else match legOutputs sender routes {| payer := sender; ledger := ledger w |} with
         | Ok (outs, w') =>
             if bool_decide (minAmountOut ≤ uint256 (sumZ outs))
             then (Ok [], w') else (Revert SlippageViolation, w)
         | Revert e => (Revert e, w)
         end.
Proof.
  unfold call, aggregateSwap. case_bool_decide; [done|].
  unfold bind at 1. unfold tstore at 1. unfold bind at 1.
  rewrite swapRoutes_total. unfold bind at 1.
  destruct (legOutputs sender routes _) as [[outs w']|e]; [|done].
  unfold ret at 1. unfold bind, require. case_bool_decide; done.
Qed.

(** *** The callback *)

Lemma payPool_inv token from pool amount w u w' :
  payPool token from pool amount w = Ok (u, w') →
  transferFrom token from pool amount (ledger w) = Some (true, ledger w') ∧
  payer w' = payer w.
Proof.
  unfold payPool. destruct (transferFrom _ _ _ _ _) as [[[] l]|]; [|done..].
  by intros [= _ <-].
Qed.

Lemma callback_inv sender amount0Delta amount1Delta data w u w' :
  uniswapV3SwapCallback sender amount0Delta amount1Delta data w = Ok (u, w') →
  ∃ d, abi_decode data = Some d ∧
       computePoolAddress (token0 d) (token1 d) (poolFee d) = Ok sender ∧
       payer w ≠ 0 ∧ payer w' = payer w ∧
       if bool_decide (0 < amount0Delta) then
         transferFrom (token0 d) (payer w) sender (uint256 amount0Delta) (ledger w)
         = Some (true, ledger w')
       else if bool_decide (0 < amount1Delta) then
         transferFrom (token1 d) (payer w) sender (uint256 amount1Delta) (ledger w)
         = Some (true, ledger w')
       else ledger w' = ledger w.
Proof.
  unfold uniswapV3SwapCallback. destruct (abi_decode data) as [d|]; [|done].
  unfold bind, view, require, tload, ret, revert.
  destruct (computePoolAddress _ _ _) as [expected|] eqn:Haddr; [|done].
  case_bool_decide as Hpool; [subst expected|done].
  case_bool_decide as Hpayer; [|done].
  intros Hrun. exists d. split; [done|]. split; [done|]. split; [done|].
  repeat case_bool_decide.
  - apply payPool_inv in Hrun as [? ?]. done.
  - apply payPool_inv in Hrun as [? ?]. done.
  - injection Hrun as _ <-. done.
Qed.

(** X8. A callback that returns was called by the pool derived from its
    context, found a payer bound, and did to the ledger exactly one
    [transferFrom] of the positive delta from that payer to the caller, or
    nothing when no delta is positive. *)
Theorem callback_success_inversion sender amount0Delta amount1Delta data w u w' :
  uniswapV3SwapCallback sender amount0Delta amount1Delta data w = Ok (u, w') →
  ∃ d, abi_decode data = Some d ∧
       computePoolAddress (token0 d) (token1 d) (poolFee d) = Ok sender ∧
       payer w ≠ 0 ∧ payer w' = payer w ∧
       if bool_decide (0 < amount0Delta) then
         transferFrom (token0 d) (payer w) sender (uint256 amount0Delta) (ledger w)
         = Some (true, ledger w')
       else if bool_decide (0 < amount1Delta) then
         transferFrom (token1 d) (payer w) sender (uint256 amount1Delta) (ledger w)
         = Some (true, ledger w')
       else ledger w' = ledger w.
Proof. apply callback_inv. Qed.

(** X10. Called by the derived pool while no payer is bound, the callback
    reverts with "no payer registered" and the state stays as it was. *)
Theorem callback_without_payer sender amount0Delta amount1Delta data d w :
  abi_decode data = Some d →
  computePoolAddress (token0 d) (token1 d) (poolFee d) = Ok sender →
  payer w = 0 →
  call (uniswapV3SwapCallback sender amount0Delta amount1Delta data) w
  = (Revert PayerNotBound, w).
Proof.
  intros Hd Hp Hpayer. apply call_Revert. unfold uniswapV3SwapCallback. rewrite Hd.
  unfold bind, view, require, tload, ret, revert. rewrite Hp.
  rewrite bool_decide_eq_true_2 by reflexivity.
  rewrite bool_decide_eq_false_2 by (intros Hne; by apply Hne). reflexivity.
Qed.

(** *** One leg *)

Lemma computePoolAddress_range t0 t1 f a :
  computePoolAddress t0 t1 f = Ok a → t0 < t1 ∧ 0 ≤ a < 2 ^ 160.
Proof.
  unfold computePoolAddress. case_bool_decide; [|done]. intros [= <-]. split; [done|].
  unfold uint160. apply Z.mod_pos_bound. lia.
Qed.

Lemma negated_range amount (w : World Ledger) out w' :
  negated amount w = Ok (out, w') → 0 ≤ out < 2 ^ 256 ∧ w' = w.
Proof.
  unfold negated, revert, ret. case_bool_decide; [done|]. intros [= <- <-]. split; [|done].
  unfold uint256. apply Z.mod_pos_bound. lia.
Qed.

(** X9. A leg that returns went through the pool whose address is derived
    from its two tokens in increasing order and its fee; the amount it
    returns is a [uint256], and the payer slot is as before. *)
Theorem leg_success_inversion sender r w out w' :
  _swapByUniswapV3 sender r w = Ok (out, w') →
  tokenIn r ≠ tokenOut r ∧
  computePoolAddress (Z.min (tokenIn r) (tokenOut r)) (Z.max (tokenIn r) (tokenOut r)) (fee r)
  = Ok (pair r) ∧
  0 ≤ pair r < 2 ^ 160 ∧ 0 ≤ out < 2 ^ 256 ∧ payer w' = payer w.
Proof.
  intros Hrun. pose proof (swap_payer _ _ _ _ _ Hrun) as Hpayer. revert Hrun.
  unfold _swapByUniswapV3, bind, view, require, ret, revert.
  destruct (bool_decide (tokenIn r ≠ tokenOut r)) eqn:Hne; [|done].
  apply bool_decide_eq_true in Hne.
  destruct (computePoolAddress _ _ _) as [expected|] eqn:Haddr; [|done].
  destruct (bool_decide (pair r = expected)) eqn:Hpair; [|done].
  apply bool_decide_eq_true in Hpair. subst expected.
  destruct (pool_swap _ _ _ _ _ _ _) as [[[a0 a1] w2]|]; [|done].
  intros Hout. split; [done|]. split; [|split; [|split; [|done]]].
  - rewrite <- Haddr. case_bool_decide.
    + by rewrite Z.min_l, Z.max_r by lia.
    + by rewrite Z.min_r, Z.max_l by lia.
  - by apply computePoolAddress_range in Haddr as [_ ?].
  - destruct (bool_decide (tokenIn r < tokenOut r)); by apply negated_range in Hout as [? _].
Qed.

(** X11. What a leg that returns has done, for a route whose fields are in
    the range of their Solidity types: its pool fixed the two amounts, the
    payer paid the pool the positive one in the corresponding token of the
    sorted pair (nothing when none is positive), the pool accepted, and the
    leg returns the other amount negated. *)
Theorem leg_semantics sender r w out w' :
  0 ≤ tokenIn r < 2 ^ 160 → 0 ≤ tokenOut r < 2 ^ 160 → 0 ≤ fee r < 2 ^ 24 →
  _swapByUniswapV3 sender r w = Ok (out, w') →
  let zeroForOne := bool_decide (tokenIn r < tokenOut r) in
  let t0 := Z.min (tokenIn r) (tokenOut r) in
  let t1 := Z.max (tokenIn r) (tokenOut r) in
  ∃ amount0 amount1 l1,
    poolQuote (pair r) sender zeroForOne (int256 (amountIn r)) 0 (ledger w)
    = Some (amount0, amount1, l1) ∧
    payer w ≠ 0 ∧
    (if bool_decide (0 < amount0) then
       transferFrom t0 (payer w) (pair r) (uint256 amount0) l1 = Some (true, ledger w')
     else if bool_decide (0 < amount1) then
       transferFrom t1 (payer w) (pair r) (uint256 amount1) l1 = Some (true, ledger w')
     else ledger w' = l1) ∧
    poolPaid (pair r) (amount0, amount1) l1 (ledger w') = true ∧
    out = uint256 (- (if zeroForOne then amount1 else amount0)).
Proof.
  intros Hin Hout Hfee. unfold _swapByUniswapV3, bind, view, require, ret, revert.
  destruct (bool_decide (tokenIn r ≠ tokenOut r)) eqn:Hne; [|done].
  apply bool_decide_eq_true in Hne.
  destruct (computePoolAddress _ _ _) as [expected|] eqn:Haddr; [|done].
  destruct (bool_decide (pair r = expected)) eqn:Hpair; [|done].
  apply bool_decide_eq_true in Hpair. subst expected.
  unfold pool_swap.
  destruct (poolQuote _ _ _ _ _ _) as [[[a0 a1] l1]|] eqn:Hquote; [|done].
  destruct (uniswapV3SwapCallback _ _ _ _ _) as [[u w2]|] eqn:Hcb; [|done].
  destruct (poolPaid _ _ _ _) eqn:Hpaid; [|done].
  intros Hret.
  apply callback_inv in Hcb as (d & Hd & _ & Hpayer & _ & Hpay).
  rewrite abi_decode_encode in Hd.
  2,3,4: cbn [token0 token1 poolFee]; destruct (bool_decide (tokenIn r < tokenOut r)); done.
  injection Hd as <-. cbn [token0 token1 payer ledger] in Hpay, Hpayer.
  assert (Ht0 : (if bool_decide (tokenIn r < tokenOut r) then tokenIn r else tokenOut r)
                = Z.min (tokenIn r) (tokenOut r)).
  { case_bool_decide; [by rewrite Z.min_l by lia|by rewrite Z.min_r by lia]. }
  assert (Ht1 : (if bool_decide (tokenIn r < tokenOut r) then tokenOut r else tokenIn r)
                = Z.max (tokenIn r) (tokenOut r)).
  { case_bool_decide; [by rewrite Z.max_r by lia|by rewrite Z.max_l by lia]. }
  rewrite Ht0, Ht1 in Hpay.
  assert (Hret' : out = uint256 (- (if bool_decide (tokenIn r < tokenOut r) then a1 else a0))
                  ∧ w' = w2).
  { clear -Hret. revert Hret. unfold negated, ret, revert.
    destruct (bool_decide (tokenIn r < tokenOut r)); case_bool_decide; cbv beta;
      intros Heq; try done; by injection Heq as <- <-. }
  destruct Hret' as [-> ->].
  exists a0, a1, l1. done.
Qed.

(** *** Who is asked to pay *)

Lemma callback_failure_payer sender a0 a1 data w token spender amount :
  uniswapV3SwapCallback sender a0 a1 data w = Revert (TransferTokenInFailed token spender amount) →
  spender = payer w.
Proof.
  unfold uniswapV3SwapCallback. destruct (abi_decode data) as [d|]; [|done].
  unfold bind, view, require, tload, ret, revert, payPool.
  destruct (computePoolAddress _ _ _) as [expected|] eqn:Haddr.
  2:{ intros [= ->]. revert Haddr. unfold computePoolAddress. by case_bool_decide. }
  repeat case_bool_decide; try done.
  - destruct (transferFrom _ _ _ _ _) as [[[] l]|]; try done. by intros [= _ <- _].
  - destruct (transferFrom _ _ _ _ _) as [[[] l]|]; try done. by intros [= _ <- _].
Qed.

Lemma leg_failure_payer sender r w token spender amount :
  _swapByUniswapV3 sender r w = Revert (TransferTokenInFailed token spender amount) →
  spender = payer w.
Proof.
  unfold _swapByUniswapV3, bind, view, require, ret, revert.
  destruct (bool_decide (tokenIn r ≠ tokenOut r)); [|done].
  destruct (computePoolAddress _ _ _) as [expected|] eqn:Haddr.
  2:{ intros [= ->]. revert Haddr. unfold computePoolAddress. by case_bool_decide. }
  destruct (bool_decide (pair r = expected)); [|done].
  unfold pool_swap. destruct (poolQuote _ _ _ _ _ _) as [[[a0 a1] l1]|]; [|done].
  destruct (uniswapV3SwapCallback _ _ _ _ _) as [[u w2]|e] eqn:Hcb.
  - destruct (poolPaid _ _ _ _); [|done].
    unfold negated, revert, ret. repeat case_match; done.
  - intros [= ->]. by apply callback_failure_payer in Hcb.
Qed.

Lemma swapRoutes_failure_payer sender routes acc w token spender amount :
  swapRoutes sender routes acc w = Revert (TransferTokenInFailed token spender amount) →
  spender = payer w.
Proof.
  revert acc w. induction routes as [|r routes IH]; intros acc w; simpl; [done|].
  unfold bind. destruct (_swapByUniswapV3 sender r w) as [[out w1]|e] eqn:Hleg.
  - intros Hrest%IH. apply swap_payer in Hleg. congruence.
  - intros [= ->]. by apply leg_failure_payer in Hleg.
Qed.

(** X12. Whenever a call of [aggregateSwap] ends with the router's
    [TransferTokenInFailed], the account named as the one that could not be
    debited is the caller, and the state is the one before the call. *)
Theorem transfer_failure_names_caller sender now routes minAmountOut deadline w
        token spender amount w' :
  call (aggregateSwap sender now routes minAmountOut deadline) w
  = (Revert (TransferTokenInFailed token spender amount), w') →
  spender = sender ∧ w' = w.
Proof.
  unfold call, aggregateSwap. case_bool_decide; [done|].
  unfold bind at 1. unfold tstore at 1. unfold bind at 1.
  destruct (swapRoutes sender routes 0 _) as [[total w1]|e] eqn:Hloop.
  - unfold bind, require, ret, revert. case_bool_decide; done.
  - intros [= -> <-]. split; [|done]. by apply swapRoutes_failure_payer in Hloop.
Qed.

End RouterExtras.

(** * The further router properties on the small chain *)

Section RouterExtraRuns.
Import Router Scenario Runs.

Lemma callback_success_inversion_witness :
  ∃ d, abi_decode (abi_encode lowFeeContext) = Some d ∧
       computePoolAddress (token0 d) (token1 d) (poolFee d) = Ok (poolAt 500) ∧
       payer bound ≠ 0 ∧ payer paidOnce = payer bound ∧
       if bool_decide (0 < 30) then
         transferFrom (token0 d) (payer bound) (poolAt 500) (uint256 30) (ledger bound)
         = Some (true, ledger paidOnce)
       else if bool_decide (0 < -60) then
         transferFrom (token1 d) (payer bound) (poolAt 500) (uint256 (-60)) (ledger bound)
         = Some (true, ledger paidOnce)
       else ledger paidOnce = ledger bound.
Proof.
  apply (callback_success_inversion (poolAt 500) 30 (-60) (abi_encode lowFeeContext)
           bound tt paidOnce).
  vm_compute. reflexivity.
Defined.

Lemma callback_without_payer_witness :
  call (uniswapV3SwapCallback (poolAt 500) 30 (-60) (abi_encode lowFeeContext)) (world 100)
  = (Revert PayerNotBound, world 100).
Proof.
  apply (callback_without_payer (poolAt 500) 30 (-60) (abi_encode lowFeeContext)
           lowFeeContext (world 100)).
  - vm_compute. reflexivity.
  - vm_compute. reflexivity.
  - reflexivity.
Defined.

Lemma leg_success_inversion_witness :
  tokenIn (leg 500 30) ≠ tokenOut (leg 500 30) ∧
  computePoolAddress (Z.min (tokenIn (leg 500 30)) (tokenOut (leg 500 30)))
                     (Z.max (tokenIn (leg 500 30)) (tokenOut (leg 500 30))) (fee (leg 500 30))
  = Ok (pair (leg 500 30)) ∧
  0 ≤ pair (leg 500 30) < 2 ^ 160 ∧ 0 ≤ 60 < 2 ^ 256 ∧
  payer afterFirstLeg = payer {| payer := alice; ledger := ledger (world 50) |}.
Proof.
  apply (leg_success_inversion alice (leg 500 30)
           {| payer := alice; ledger := ledger (world 50) |} 60 afterFirstLeg).
  vm_compute. reflexivity.
Defined.

Lemma leg_semantics_witness :
  let r := leg 500 30 in
  let w := {| payer := alice; ledger := ledger (world 50) |} in
  let zeroForOne := bool_decide (tokenIn r < tokenOut r) in
  let t0 := Z.min (tokenIn r) (tokenOut r) in
  let t1 := Z.max (tokenIn r) (tokenOut r) in
  ∃ amount0 amount1 l1,
    poolQuote (pair r) alice zeroForOne (int256 (amountIn r)) 0 (ledger w)
    = Some (amount0, amount1, l1) ∧
    payer w ≠ 0 ∧
    (if bool_decide (0 < amount0) then
       transferFrom t0 (payer w) (pair r) (uint256 amount0) l1
       = Some (true, ledger afterFirstLeg)
     else if bool_decide (0 < amount1) then
       transferFrom t1 (payer w) (pair r) (uint256 amount1) l1
       = Some (true, ledger afterFirstLeg)
     else ledger afterFirstLeg = l1) ∧
    poolPaid (pair r) (amount0, amount1) l1 (ledger afterFirstLeg) = true ∧
    60 = uint256 (- (if zeroForOne then amount1 else amount0)).
Proof.
  apply (leg_semantics alice (leg 500 30)
           {| payer := alice; ledger := ledger (world 50) |} 60 afterFirstLeg).
  - split; vm_compute; (reflexivity || discriminate).
  - split; vm_compute; (reflexivity || discriminate).
  - split; vm_compute; (reflexivity || discriminate).
  - vm_compute. reflexivity.
Defined.

Lemma transfer_failure_names_caller_witness :
  call (aggregateSwap alice 10 threeLegs 0 20) (world 50)
  = (Revert (TransferTokenInFailed USDC alice 50), world 50) ∧
  alice = alice ∧ world 50 = world 50.
Proof.
  split; [vm_compute; reflexivity|].
  apply (transfer_failure_names_caller alice 10 threeLegs 0 20 (world 50) USDC alice 50 (world 50)).
  vm_compute. reflexivity.
Defined.

End RouterExtraRuns.
